(** * The bytecode instruction set and its metadata (pt-bytecode.h)

    A shallow embedding of the declarations of
    [libinterp/parse-tree/pt-bytecode.h]: the opcode vocabulary, the
    unwind/debug side tables, the bytecode container, the error and
    storage-class tag sets.  The compiler (tree walker to bytecode) is
    defined in another translation unit; the part of it the properties
    of the unwind table need is modelled from the specification and is
    marked as such.  The scripts [speye.m], [datevec.m] and [datestr]
    follow. *)

From Stdlib Require Import ZArith List Bool Lia PrimFloat.
From stdpp Require Import base tactics option list gmap strings.

Local Open Scope Z_scope.

(** ** Opcodes: [enum class INSTR] *)

Inductive INSTR : Set :=
   | POP | DUP | LOAD_CST | MUL | DIV | ADD | SUB | RET | ASSIGN | JMP_IF
   | JMP | JMP_IFN | PUSH_SLOT_NARGOUT0 | LE | LE_EQ | GR | GR_EQ | EQ | NEQ
   | INDEX_ID_NARGOUT0 | PUSH_SLOT_INDEXED | POW | LDIV | EL_MUL | EL_DIV
   | EL_POW | EL_AND | EL_OR | EL_LDIV | NOT | UADD | USUB | TRANS | HERM
   | INCR_ID_PREFIX | DECR_ID_PREFIX | INCR_ID_POSTFIX | DECR_ID_POSTFIX
   | FOR_SETUP | FOR_COND | POP_N_INTS | PUSH_SLOT_NARGOUT1
   | INDEX_ID_NARGOUT1 | PUSH_FCN_HANDLE | COLON3 | COLON2 | COLON3_CMD
   | COLON2_CMD | PUSH_TRUE | PUSH_FALSE | UNARY_TRUE | INDEX_IDN | ASSIGNN
   | PUSH_SLOT_NARGOUTN | SUBASSIGN_ID | END_ID | MATRIX | TRANS_MUL
   | MUL_TRANS | HERM_MUL | MUL_HERM | TRANS_LDIV | HERM_LDIV | WORDCMD
   | HANDLE_SIGNALS | PUSH_CELL | PUSH_OV_U64 | EXPAND_CS_LIST
   | INDEX_CELL_ID_NARGOUT0 | INDEX_CELL_ID_NARGOUT1
   | INDEX_CELL_ID_NARGOUTN | INCR_PREFIX | ROT | GLOBAL_INIT
   | ASSIGN_COMPOUND | JMP_IFDEF | JMP_IFNCASEMATCH | BRAINDEAD_PRECONDITION
   | BRAINDEAD_WARNING | FORCE_ASSIGN | PUSH_NIL | THROW_IFERROBJ
   | INDEX_STRUCT_NARGOUTN | SUBASSIGN_STRUCT | SUBASSIGN_CELL_ID
   | INDEX_OBJ | SUBASSIGN_OBJ | MATRIX_UNEVEN | LOAD_FAR_CST | END_OBJ
   | SET_IGNORE_OUTPUTS | CLEAR_IGNORE_OUTPUTS | SUBASSIGN_CHAINED
   | SET_SLOT_TO_STACK_DEPTH | DUPN | DEBUG | INDEX_STRUCT_CALL | END_X_N
   | EVAL | BIND_ANS | PUSH_ANON_FCN_HANDLE | FOR_COMPLEX_SETUP
   | FOR_COMPLEX_COND | PUSH_SLOT_NARGOUT1_SPECIAL | DISP | PUSH_SLOT_DISP
   | LOAD_CST_ALT2 | LOAD_CST_ALT3 | LOAD_CST_ALT4 | LOAD_2_CST | MUL_DBL
   | ADD_DBL | SUB_DBL | DIV_DBL | POW_DBL | LE_DBL | LE_EQ_DBL | GR_DBL
   | GR_EQ_DBL | EQ_DBL | NEQ_DBL | INDEX_ID1_MAT_1D | INDEX_ID1_MAT_2D
   | PUSH_PI | INDEX_ID1_MATHY_UFUN | SUBASSIGN_ID_MAT_1D
   | INCR_ID_PREFIX_DBL | DECR_ID_PREFIX_DBL | INCR_ID_POSTFIX_DBL
   | DECR_ID_POSTFIX_DBL | PUSH_DBL_0 | PUSH_DBL_1 | PUSH_DBL_2
   | JMP_IF_BOOL | JMP_IFN_BOOL | USUB_DBL | NOT_DBL | NOT_BOOL
   | PUSH_FOLDED_CST | SET_FOLDED_CST | WIDE.

Definition INSTR_code (i : INSTR) : Z :=
  match i with
   | POP => 0 | DUP => 1 | LOAD_CST => 2 | MUL => 3 | DIV => 4 | ADD => 5
   | SUB => 6 | RET => 7 | ASSIGN => 8 | JMP_IF => 9 | JMP => 10
   | JMP_IFN => 11 | PUSH_SLOT_NARGOUT0 => 12 | LE => 13 | LE_EQ => 14
   | GR => 15 | GR_EQ => 16 | EQ => 17 | NEQ => 18 | INDEX_ID_NARGOUT0 => 19
   | PUSH_SLOT_INDEXED => 20 | POW => 21 | LDIV => 22 | EL_MUL => 23
   | EL_DIV => 24 | EL_POW => 25 | EL_AND => 26 | EL_OR => 27
   | EL_LDIV => 28 | NOT => 29 | UADD => 30 | USUB => 31 | TRANS => 32
   | HERM => 33 | INCR_ID_PREFIX => 34 | DECR_ID_PREFIX => 35
   | INCR_ID_POSTFIX => 36 | DECR_ID_POSTFIX => 37 | FOR_SETUP => 38
   | FOR_COND => 39 | POP_N_INTS => 40 | PUSH_SLOT_NARGOUT1 => 41
   | INDEX_ID_NARGOUT1 => 42 | PUSH_FCN_HANDLE => 43 | COLON3 => 44
   | COLON2 => 45 | COLON3_CMD => 46 | COLON2_CMD => 47 | PUSH_TRUE => 48
   | PUSH_FALSE => 49 | UNARY_TRUE => 50 | INDEX_IDN => 51 | ASSIGNN => 52
   | PUSH_SLOT_NARGOUTN => 53 | SUBASSIGN_ID => 54 | END_ID => 55
   | MATRIX => 56 | TRANS_MUL => 57 | MUL_TRANS => 58 | HERM_MUL => 59
   | MUL_HERM => 60 | TRANS_LDIV => 61 | HERM_LDIV => 62 | WORDCMD => 63
   | HANDLE_SIGNALS => 64 | PUSH_CELL => 65 | PUSH_OV_U64 => 66
   | EXPAND_CS_LIST => 67 | INDEX_CELL_ID_NARGOUT0 => 68
   | INDEX_CELL_ID_NARGOUT1 => 69 | INDEX_CELL_ID_NARGOUTN => 70
   | INCR_PREFIX => 71 | ROT => 72 | GLOBAL_INIT => 73
   | ASSIGN_COMPOUND => 74 | JMP_IFDEF => 75 | JMP_IFNCASEMATCH => 76
   | BRAINDEAD_PRECONDITION => 77 | BRAINDEAD_WARNING => 78
   | FORCE_ASSIGN => 79 | PUSH_NIL => 80 | THROW_IFERROBJ => 81
   | INDEX_STRUCT_NARGOUTN => 82 | SUBASSIGN_STRUCT => 83
   | SUBASSIGN_CELL_ID => 84 | INDEX_OBJ => 85 | SUBASSIGN_OBJ => 86
   | MATRIX_UNEVEN => 87 | LOAD_FAR_CST => 88 | END_OBJ => 89
   | SET_IGNORE_OUTPUTS => 90 | CLEAR_IGNORE_OUTPUTS => 91
   | SUBASSIGN_CHAINED => 92 | SET_SLOT_TO_STACK_DEPTH => 93 | DUPN => 94
   | DEBUG => 95 | INDEX_STRUCT_CALL => 96 | END_X_N => 97 | EVAL => 98
   | BIND_ANS => 99 | PUSH_ANON_FCN_HANDLE => 100 | FOR_COMPLEX_SETUP => 101
   | FOR_COMPLEX_COND => 102 | PUSH_SLOT_NARGOUT1_SPECIAL => 103
   | DISP => 104 | PUSH_SLOT_DISP => 105 | LOAD_CST_ALT2 => 106
   | LOAD_CST_ALT3 => 107 | LOAD_CST_ALT4 => 108 | LOAD_2_CST => 109
   | MUL_DBL => 110 | ADD_DBL => 111 | SUB_DBL => 112 | DIV_DBL => 113
   | POW_DBL => 114 | LE_DBL => 115 | LE_EQ_DBL => 116 | GR_DBL => 117
   | GR_EQ_DBL => 118 | EQ_DBL => 119 | NEQ_DBL => 120
   | INDEX_ID1_MAT_1D => 121 | INDEX_ID1_MAT_2D => 122 | PUSH_PI => 123
   | INDEX_ID1_MATHY_UFUN => 124 | SUBASSIGN_ID_MAT_1D => 125
   | INCR_ID_PREFIX_DBL => 126 | DECR_ID_PREFIX_DBL => 127
   | INCR_ID_POSTFIX_DBL => 128 | DECR_ID_POSTFIX_DBL => 129
   | PUSH_DBL_0 => 130 | PUSH_DBL_1 => 131 | PUSH_DBL_2 => 132
   | JMP_IF_BOOL => 133 | JMP_IFN_BOOL => 134 | USUB_DBL => 135
   | NOT_DBL => 136 | NOT_BOOL => 137 | PUSH_FOLDED_CST => 138
   | SET_FOLDED_CST => 139 | WIDE => 140
  end.

Definition INSTR_of_code (z : Z) : option INSTR :=
  match z with
   | 0 => Some POP | 1 => Some DUP | 2 => Some LOAD_CST | 3 => Some MUL
   | 4 => Some DIV | 5 => Some ADD | 6 => Some SUB | 7 => Some RET
   | 8 => Some ASSIGN | 9 => Some JMP_IF | 10 => Some JMP
   | 11 => Some JMP_IFN | 12 => Some PUSH_SLOT_NARGOUT0 | 13 => Some LE
   | 14 => Some LE_EQ | 15 => Some GR | 16 => Some GR_EQ | 17 => Some EQ
   | 18 => Some NEQ | 19 => Some INDEX_ID_NARGOUT0
   | 20 => Some PUSH_SLOT_INDEXED | 21 => Some POW | 22 => Some LDIV
   | 23 => Some EL_MUL | 24 => Some EL_DIV | 25 => Some EL_POW
   | 26 => Some EL_AND | 27 => Some EL_OR | 28 => Some EL_LDIV
   | 29 => Some NOT | 30 => Some UADD | 31 => Some USUB | 32 => Some TRANS
   | 33 => Some HERM | 34 => Some INCR_ID_PREFIX | 35 => Some DECR_ID_PREFIX
   | 36 => Some INCR_ID_POSTFIX | 37 => Some DECR_ID_POSTFIX
   | 38 => Some FOR_SETUP | 39 => Some FOR_COND | 40 => Some POP_N_INTS
   | 41 => Some PUSH_SLOT_NARGOUT1 | 42 => Some INDEX_ID_NARGOUT1
   | 43 => Some PUSH_FCN_HANDLE | 44 => Some COLON3 | 45 => Some COLON2
   | 46 => Some COLON3_CMD | 47 => Some COLON2_CMD | 48 => Some PUSH_TRUE
   | 49 => Some PUSH_FALSE | 50 => Some UNARY_TRUE | 51 => Some INDEX_IDN
   | 52 => Some ASSIGNN | 53 => Some PUSH_SLOT_NARGOUTN
   | 54 => Some SUBASSIGN_ID | 55 => Some END_ID | 56 => Some MATRIX
   | 57 => Some TRANS_MUL | 58 => Some MUL_TRANS | 59 => Some HERM_MUL
   | 60 => Some MUL_HERM | 61 => Some TRANS_LDIV | 62 => Some HERM_LDIV
   | 63 => Some WORDCMD | 64 => Some HANDLE_SIGNALS | 65 => Some PUSH_CELL
   | 66 => Some PUSH_OV_U64 | 67 => Some EXPAND_CS_LIST
   | 68 => Some INDEX_CELL_ID_NARGOUT0 | 69 => Some INDEX_CELL_ID_NARGOUT1
   | 70 => Some INDEX_CELL_ID_NARGOUTN | 71 => Some INCR_PREFIX
   | 72 => Some ROT | 73 => Some GLOBAL_INIT | 74 => Some ASSIGN_COMPOUND
   | 75 => Some JMP_IFDEF | 76 => Some JMP_IFNCASEMATCH
   | 77 => Some BRAINDEAD_PRECONDITION | 78 => Some BRAINDEAD_WARNING
   | 79 => Some FORCE_ASSIGN | 80 => Some PUSH_NIL
   | 81 => Some THROW_IFERROBJ | 82 => Some INDEX_STRUCT_NARGOUTN
   | 83 => Some SUBASSIGN_STRUCT | 84 => Some SUBASSIGN_CELL_ID
   | 85 => Some INDEX_OBJ | 86 => Some SUBASSIGN_OBJ
   | 87 => Some MATRIX_UNEVEN | 88 => Some LOAD_FAR_CST | 89 => Some END_OBJ
   | 90 => Some SET_IGNORE_OUTPUTS | 91 => Some CLEAR_IGNORE_OUTPUTS
   | 92 => Some SUBASSIGN_CHAINED | 93 => Some SET_SLOT_TO_STACK_DEPTH
   | 94 => Some DUPN | 95 => Some DEBUG | 96 => Some INDEX_STRUCT_CALL
   | 97 => Some END_X_N | 98 => Some EVAL | 99 => Some BIND_ANS
   | 100 => Some PUSH_ANON_FCN_HANDLE | 101 => Some FOR_COMPLEX_SETUP
   | 102 => Some FOR_COMPLEX_COND | 103 => Some PUSH_SLOT_NARGOUT1_SPECIAL
   | 104 => Some DISP | 105 => Some PUSH_SLOT_DISP
   | 106 => Some LOAD_CST_ALT2 | 107 => Some LOAD_CST_ALT3
   | 108 => Some LOAD_CST_ALT4 | 109 => Some LOAD_2_CST
   | 110 => Some MUL_DBL | 111 => Some ADD_DBL | 112 => Some SUB_DBL
   | 113 => Some DIV_DBL | 114 => Some POW_DBL | 115 => Some LE_DBL
   | 116 => Some LE_EQ_DBL | 117 => Some GR_DBL | 118 => Some GR_EQ_DBL
   | 119 => Some EQ_DBL | 120 => Some NEQ_DBL | 121 => Some INDEX_ID1_MAT_1D
   | 122 => Some INDEX_ID1_MAT_2D | 123 => Some PUSH_PI
   | 124 => Some INDEX_ID1_MATHY_UFUN | 125 => Some SUBASSIGN_ID_MAT_1D
   | 126 => Some INCR_ID_PREFIX_DBL | 127 => Some DECR_ID_PREFIX_DBL
   | 128 => Some INCR_ID_POSTFIX_DBL | 129 => Some DECR_ID_POSTFIX_DBL
   | 130 => Some PUSH_DBL_0 | 131 => Some PUSH_DBL_1
   | 132 => Some PUSH_DBL_2 | 133 => Some JMP_IF_BOOL
   | 134 => Some JMP_IFN_BOOL | 135 => Some USUB_DBL | 136 => Some NOT_DBL
   | 137 => Some NOT_BOOL | 138 => Some PUSH_FOLDED_CST
   | 139 => Some SET_FOLDED_CST | 140 => Some WIDE
  | _ => None
  end.

(** The instruction stream is a [std::vector<unsigned char>]: an opcode
    is stored as the byte holding its enumerator value. *)
Definition fetch_opcode (code : list Z) (ip : nat) : option INSTR :=
  code !! ip ≫= INSTR_of_code.

(** ** Unwind and debug metadata *)

Module UnwindEntryType.
Inductive unwind_entry_type : Set :=
  | INVALID
  | FOR_LOOP
  | TRY_CATCH
  | UNWIND_PROTECT.
End UnwindEntryType.
Abbreviation unwind_entry_type := UnwindEntryType.unwind_entry_type.

(** [struct unwind_entry].  An [int] member is kept as a [Z]; the
    instruction offsets of a unit shorter than 2^31 bytes are within
    the range of [int]. *)
Record unwind_entry : Set := mk_unwind_entry {
  m_ip_start : Z;
  m_ip_end : Z;
  m_ip_target : Z;
  m_stack_depth : Z;
  m_unwind_entry_type : unwind_entry_type;
}.

(** [struct loc_entry]: all four members carry the default member
    initializer [-1]. *)
Module LocEntry.
Record loc_entry : Set := mk_loc_entry {
  m_ip_start : Z;
  m_ip_end : Z;
  m_col : Z;
  m_line : Z;
}.

(** The value-initialized entry, [loc_entry {}]. *)
Definition default : loc_entry :=
  {| m_ip_start := -1; m_ip_end := -1; m_col := -1; m_line := -1 |}.

(** An entry covers the half-open instruction range
    [m_ip_start, m_ip_end). *)
Definition covers (e : loc_entry) (ip : Z) : bool :=
  (m_ip_start e <=? ip) && (ip <? m_ip_end e).
End LocEntry.
Abbreviation loc_entry := LocEntry.loc_entry.

Module ArgNameEntry.
Record arg_name_entry (Cell : Type) : Type := mk_arg_name_entry {
  m_ip_start : Z;
  m_ip_end : Z;
  m_arg_names : Cell;
  m_obj_name : string;
}.
End ArgNameEntry.
Abbreviation arg_name_entry := ArgNameEntry.arg_name_entry.

(** [struct unwind_data].  [Cell] and [tree] are declared elsewhere in
    the interpreter and stay parameters; a [tree*] is kept as the
    pointed-to node. *)
Record unwind_data (Cell tree : Type) : Type := mk_unwind_data {
  m_unwind_entries : list unwind_entry;
  m_loc_entry : list loc_entry;
  m_slot_to_persistent_slot : gmap Z Z;
  m_ip_to_tree : gmap Z tree;
  m_argname_entries : list (arg_name_entry Cell);
  m_external_frame_offset_to_internal : gmap Z Z;
  m_name : string;
  m_file : string;
  m_code_size : Z;
  m_ids_size : Z;
}.
Arguments m_unwind_entries {Cell tree} _.
Arguments m_loc_entry {Cell tree} _.
Arguments m_slot_to_persistent_slot {Cell tree} _.
Arguments m_ip_to_tree {Cell tree} _.
Arguments m_argname_entries {Cell tree} _.
Arguments m_external_frame_offset_to_internal {Cell tree} _.
Arguments m_name {Cell tree} _.
Arguments m_file {Cell tree} _.
Arguments m_code_size {Cell tree} _.
Arguments m_ids_size {Cell tree} _.

(** [struct bytecode]: code bytes, constant pool, identifier table and
    the unit's unwind data. *)
Record bytecode (octave_value Cell tree : Type) : Type := mk_bytecode {
  m_code : list Z;
  m_data : list octave_value;
  m_ids : list string;
  m_unwind_data : unwind_data Cell tree;
}.
Arguments mk_bytecode {octave_value Cell tree} _ _ _ _.
Arguments m_code {octave_value Cell tree} _.
Arguments m_data {octave_value Cell tree} _.
Arguments m_ids {octave_value Cell tree} _.
Arguments m_unwind_data {octave_value Cell tree} _.

(** ** Error and storage-class tags *)

(** [enum class error_type]: "Enums to describe what error message to
    build". *)
Module ErrorType.
Inductive error_type : Set :=
  | INVALID
  | ID_UNDEFINED
  | ID_UNDEFINEDN
  | IF_UNDEFINED
  | INDEX_ERROR
  | EXECUTION_EXC
  | INTERRUPT_EXC
  | INVALID_N_EL_RHS_IN_ASSIGNMENT
  | RHS_UNDEF_IN_ASSIGNMENT
  | BAD_ALLOC
  | EXIT_EXCEPTION.

(** The enumerators in declaration order. *)
Definition all : list error_type :=
  [INVALID; ID_UNDEFINED; ID_UNDEFINEDN; IF_UNDEFINED; INDEX_ERROR;
   EXECUTION_EXC; INTERRUPT_EXC; INVALID_N_EL_RHS_IN_ASSIGNMENT;
   RHS_UNDEF_IN_ASSIGNMENT; BAD_ALLOC; EXIT_EXCEPTION].
End ErrorType.
Abbreviation error_type := ErrorType.error_type.

Module GlobalType.
Inductive global_type : Set :=
  | GLOBAL
  | PERSISTENT
  | GLOBAL_OR_PERSISTENT.

Definition all : list global_type :=
  [GLOBAL; PERSISTENT; GLOBAL_OR_PERSISTENT].
End GlobalType.
Abbreviation global_type := GlobalType.global_type.

(** ** The taxonomies as the specification words them *)

(** The failure categories listed in sections 4.4 and 7 of the
    specification. *)
Inductive spec_error_category : Set :=
  | cat_identifier_undefined_value_use
  | cat_identifier_undefined_conditional_use
  | cat_indexing_error
  | cat_assignment_target_count_mismatch
  | cat_undefined_rhs_in_assignment
  | cat_allocation_failure
  | cat_propagated_interrupt
  | cat_explicit_exit.

(** The listed category each [error_type] enumerator names, if any.
    [ID_UNDEFINED] and [ID_UNDEFINEDN] are the single- and multi-result
    value uses of an undefined identifier, [IF_UNDEFINED] its use as a
    condition.  [EXECUTION_EXC] (a general execution exception, the one
    carried by the [execution_exception *pee] member of [stack_element])
    and the [INVALID] sentinel name none of the listed categories. *)
Definition category_of (e : error_type) : option spec_error_category :=
  match e with
  | ErrorType.INVALID => None
  | ErrorType.ID_UNDEFINED => Some cat_identifier_undefined_value_use
  | ErrorType.ID_UNDEFINEDN => Some cat_identifier_undefined_value_use
  | ErrorType.IF_UNDEFINED => Some cat_identifier_undefined_conditional_use
  | ErrorType.INDEX_ERROR => Some cat_indexing_error
  | ErrorType.EXECUTION_EXC => None
  | ErrorType.INTERRUPT_EXC => Some cat_propagated_interrupt
  | ErrorType.INVALID_N_EL_RHS_IN_ASSIGNMENT =>
      Some cat_assignment_target_count_mismatch
  | ErrorType.RHS_UNDEF_IN_ASSIGNMENT => Some cat_undefined_rhs_in_assignment
  | ErrorType.BAD_ALLOC => Some cat_allocation_failure
  | ErrorType.EXIT_EXCEPTION => Some cat_explicit_exit
  end.

(** The variable-storage classes listed in section 3 of the
    specification. *)
Inductive spec_storage_class : Set :=
  | class_ordinary
  | class_global
  | class_persistent
  | class_global_or_persistent.

Definition storage_class_of (g : global_type) : spec_storage_class :=
  match g with
  | GlobalType.GLOBAL => class_global
  | GlobalType.PERSISTENT => class_persistent
  | GlobalType.GLOBAL_OR_PERSISTENT => class_global_or_persistent
  end.

(** ** Diagnostic-path lookups *)

(** Modelled from the spec: the source-location lookup of the error
    path, which is defined outside pt-bytecode.h.  The table maps
    instruction ranges to line/column; an instruction no range covers
    gets a value-initialized [loc_entry]. *)
Definition find_loc (ip : Z) (loc_entries : list loc_entry) : loc_entry :=
  match List.find (fun e => LocEntry.covers e ip) loc_entries with
  | Some e => e
  | None => LocEntry.default
  end.

(** Modelled from the spec: a condition is reported "with source
    location when available, otherwise unknown location"; a line or
    column number is not negative, so a negative member is no
    location. *)
Definition known_location (e : loc_entry) : option (Z * Z) :=
  if (0 <=? LocEntry.m_line e) && (0 <=? LocEntry.m_col e)
  then Some (LocEntry.m_line e, LocEntry.m_col e)
  else None.

(** ** The compiler's emission of protected ranges *)

(** Modelled from the spec: the statement forms of the consumed syntax
    tree that matter for control flow (section 6).  The front end and
    the tree classes are outside pt-bytecode.h, which only
    forward-declares [class tree].  An expression or assignment
    statement is kept as the straight-line code generated for it, which
    leaves the operand stack as deep as it found it. *)
#[warnings="-register-all"]
Inductive stmt : Type :=
  | s_expr (code : list Z)
  | s_if (cond : list Z) (then_branch else_branch : list stmt)
  | s_for (range : list Z) (body : list stmt)
  | s_try (body handler : list stmt)
  | s_unwind_protect (body cleanup : list stmt).

(** The output under construction: the code emitted so far and the
    unwind entries recorded so far. *)
Record emitter : Type := mk_emitter {
  em_code : list Z;
  em_unwind : list unwind_entry;
}.

Definition empty_emitter : emitter := {| em_code := []; em_unwind := [] |}.

Definition code_size (em : emitter) : Z := Z.of_nat (length (em_code em)).

Definition emit (b : Z) (em : emitter) : emitter :=
  {| em_code := em_code em ++ [b]; em_unwind := em_unwind em |}.

Definition emit_all (bs : list Z) (em : emitter) : emitter :=
  {| em_code := em_code em ++ bs; em_unwind := em_unwind em |}.

Definition emit_instr (i : INSTR) (em : emitter) : emitter :=
  emit (INSTR_code i) em.

(** A branch target takes two bytes, low byte first. *)
Definition emit_short (v : Z) (em : emitter) : emitter :=
  emit (v / 256 mod 256) (emit (v mod 256) em).

(** Back-patching a two-byte target emitted earlier at offset [at_]. *)
Definition patch_short (at_ v : Z) (em : emitter) : emitter :=
  {| em_code := <[Z.to_nat (at_ + 1) := v / 256 mod 256]>
                  (<[Z.to_nat at_ := v mod 256]> (em_code em));
     em_unwind := em_unwind em |}.

Definition add_unwind_entry (e : unwind_entry) (em : emitter) : emitter :=
  {| em_code := em_code em; em_unwind := em_unwind em ++ [e] |}.

(** Operand-stack cells a running range loop keeps below its body: the
    iterated value, the element count and the current index. *)
Definition for_loop_cells : Z := 3.

(** Modelled from the spec: the single forward pass of section 4.2 with
    back-patched branch targets, one unwind entry per protected
    construct (loop body, try/catch pair, unwind-protect block)
    recording guarded range, handler/resume target, restore depth and
    kind.  [depth] is the operand-stack depth at the statement.

    - if:  cond; JMP_IFN else; then-branch; JMP end; else: else-branch; end:
    - for: range; FOR_SETUP; cond: FOR_COND after; body; JMP cond; after:
      guarded range [cond, after), resumed at [after]
    - try: body; JMP end; handler: POP; handler-body; end:
      guarded range [start, handler), handled at [handler]
    - unwind_protect: body; PUSH_NIL; cleanup: cleanup-body; THROW_IFERROBJ
      guarded range [start, cleanup), handled at [cleanup] *)
Fixpoint compile_stmt (depth : Z) (s : stmt) (em : emitter) {struct s}
    : emitter :=
  match s with
  | s_expr code => emit_all code em
  | s_if cond then_branch else_branch =>
      let em := emit_all cond em in
      let em := emit_instr JMP_IFN em in
      let to_else := code_size em in
      let em := emit_short 0 em in
      let em := fold_left (fun em s => compile_stmt depth s em) then_branch em in
      let em := emit_instr JMP em in
      let to_end := code_size em in
      let em := emit_short 0 em in
      let em := patch_short to_else (code_size em) em in
      let em := fold_left (fun em s => compile_stmt depth s em) else_branch em in
      patch_short to_end (code_size em) em
  | s_for range body =>
      let em := emit_all range em in
      let em := emit_instr FOR_SETUP em in
      let cond := code_size em in
      let em := emit_instr FOR_COND em in
      let to_after := code_size em in
      let em := emit_short 0 em in
      let em :=
        fold_left (fun em s => compile_stmt (depth + for_loop_cells) s em)
          body em in
      let em := emit_instr JMP em in
      let em := emit_short cond em in
      let after := code_size em in
      let em := patch_short to_after after em in
      add_unwind_entry
        {| m_ip_start := cond; m_ip_end := after; m_ip_target := after;
           m_stack_depth := depth;
           m_unwind_entry_type := UnwindEntryType.FOR_LOOP |} em
  | s_try body handler =>
      let start := code_size em in
      let em := fold_left (fun em s => compile_stmt depth s em) body em in
      let em := emit_instr JMP em in
      let to_end := code_size em in
      let em := emit_short 0 em in
      let handler_ip := code_size em in
      let em := emit_instr POP em in
      let em := fold_left (fun em s => compile_stmt depth s em) handler em in
      let em := patch_short to_end (code_size em) em in
      add_unwind_entry
        {| m_ip_start := start; m_ip_end := handler_ip;
           m_ip_target := handler_ip; m_stack_depth := depth;
           m_unwind_entry_type := UnwindEntryType.TRY_CATCH |} em
  | s_unwind_protect body cleanup =>
      let start := code_size em in
      let em := fold_left (fun em s => compile_stmt depth s em) body em in
      let em := emit_instr PUSH_NIL em in
      let cleanup_ip := code_size em in
      let em :=
        fold_left (fun em s => compile_stmt (depth + 1) s em) cleanup em in
      let em := emit_instr THROW_IFERROBJ em in
      add_unwind_entry
        {| m_ip_start := start; m_ip_end := cleanup_ip;
           m_ip_target := cleanup_ip; m_stack_depth := depth;
           m_unwind_entry_type := UnwindEntryType.UNWIND_PROTECT |} em
  end.

Definition compile_block (depth : Z) (ss : list stmt) (em : emitter)
    : emitter :=
  fold_left (fun em s => compile_stmt depth s em) ss em.

(** Modelled from the spec: compiling one unit (a function or script
    body) into its [bytecode]: the body, a final [RET], and the side
    tables.  Constant pool, identifier table and the tables of the
    diagnostic path are taken as produced by the parts of the compiler
    not modelled here. *)
Definition compile_unit {octave_value Cell tree : Type}
    (name file : string) (body : list stmt)
    (data : list octave_value) (ids : list string)
    (locs : list loc_entry) (argnames : list (arg_name_entry Cell))
    : bytecode octave_value Cell tree :=
  let em := emit_instr RET (compile_block 0 body empty_emitter) in
  {| m_code := em_code em;
     m_data := data;
     m_ids := ids;
     m_unwind_data :=
       {| m_unwind_entries := em_unwind em;
          m_loc_entry := locs;
          m_slot_to_persistent_slot := ∅;
          m_ip_to_tree := ∅;
          m_argname_entries := argnames;
          m_external_frame_offset_to_internal := ∅;
          m_name := name;
          m_file := file;
          m_code_size := code_size em;
          m_ids_size := Z.of_nat (length ids) |} |}.

(** The guarded range of [a] lies inside that of [b]. *)
Definition nested_in (a b : unwind_entry) : Prop :=
  m_ip_start b <= m_ip_start a /\ m_ip_end a <= m_ip_end b.

Definition disjoint_ranges (a b : unwind_entry) : Prop :=
  m_ip_end a <= m_ip_start b \/ m_ip_end b <= m_ip_start a.

(** Two guarded ranges nest or are disjoint: no partial overlap. *)
Definition no_partial_overlap (a b : unwind_entry) : Prop :=
  nested_in a b \/ nested_in b a \/ disjoint_ranges a b.

Definition no_partial_overlapb (a b : unwind_entry) : bool :=
  ((m_ip_start b <=? m_ip_start a) && (m_ip_end a <=? m_ip_end b))
  || ((m_ip_start a <=? m_ip_start b) && (m_ip_end b <=? m_ip_end a))
  || (m_ip_end a <=? m_ip_start b) || (m_ip_end b <=? m_ip_start a).

(** The kinds of a protected construct. *)
Definition protected_kind (k : unwind_entry_type) : Prop :=
  k = UnwindEntryType.FOR_LOOP \/ k = UnwindEntryType.TRY_CATCH
  \/ k = UnwindEntryType.UNWIND_PROTECT.

(** An entry whose range lies in the code between [lo] and [hi]. *)
Definition range_within (lo hi : Z) (e : unwind_entry) : Prop :=
  lo <= m_ip_start e /\ m_ip_end e <= hi.

(** A guarded range that holds at least one instruction. *)
Definition proper_range (e : unwind_entry) : Prop :=
  m_ip_start e < m_ip_end e.

(** Entries that pairwise nest or are disjoint. *)
Definition laminar (es : list unwind_entry) : Prop :=
  forall a b, In a es -> In b es -> no_partial_overlap a b.

(** What a stretch of compilation that took the emitter from [em] to
    [em'] has added: code at the end, and the entries [new], each a
    proper range of a protected kind inside the added code, which
    pairwise nest or are disjoint. *)
Definition extends_by (em em' : emitter) (new : list unwind_entry) : Prop :=
  em_unwind em' = em_unwind em ++ new
  /\ code_size em <= code_size em'
  /\ Forall (fun e => proper_range e
                      /\ range_within (code_size em) (code_size em') e
                      /\ protected_kind (m_unwind_entry_type e)) new
  /\ laminar new.

(** ** Stack cells *)

(** [union stack_element].  The embedding keeps one constructor per
    member; the C++ union stores no such tag.  Pointer members are kept
    as addresses. *)
Inductive stack_element (octave_value : Type) : Type :=
  | se_ov (ov : octave_value)
  | se_ov_vm (ov_vm : octave_value)
  | se_ovb (ovb : Z)
  | se_u (u : Z)
  | se_i (i : Z)
  | se_d (d : float)
  | se_pv (pv : Z)
  | se_pcc (pcc : Z)
  | se_puc (puc : Z)
  | se_pse (pse : Z)
  | se_pov (pov : Z)
  | se_ps (ps : Z)
  | se_pud (pud : Z)
  | se_pee (pee : Z).
Arguments se_ov {octave_value} _.
Arguments se_ov_vm {octave_value} _.
Arguments se_ovb {octave_value} _.
Arguments se_u {octave_value} _.
Arguments se_i {octave_value} _.
Arguments se_d {octave_value} _.
Arguments se_pv {octave_value} _.
Arguments se_pcc {octave_value} _.
Arguments se_puc {octave_value} _.
Arguments se_pse {octave_value} _.
Arguments se_pov {octave_value} _.
Arguments se_ps {octave_value} _.
Arguments se_pud {octave_value} _.
Arguments se_pee {octave_value} _.

(** * scripts/sparse/speye.m *)

Module Speye.

(** A numeric array argument: its dimension vector and its elements in
    column-major order.  Dimension arguments are whole numbers and are
    kept as [Z]. *)
Record array : Set := mk_array {
  dims : list Z;
  elems : list Z;
}.

Definition scalar (x : Z) : array := {| dims := [1; 1]; elems := [x] |}.

Definition row_vector (xs : list Z) : array :=
  {| dims := [1; Z.of_nat (length xs)]; elems := xs |}.

Definition column_vector (xs : list Z) : array :=
  {| dims := [Z.of_nat (length xs); 1]; elems := xs |}.

(** The array predicates of the interpreter the function calls:
    [numel] is the product of the dimensions, a vector is a 2-D array
    with a dimension equal to 1, a scalar is a 1x1 array. *)
Definition numel (a : array) : Z := fold_right Z.mul 1 (dims a).

Definition isvector (a : array) : bool :=
  match dims a with
  | [r; c] => (r =? 1) || (c =? 1)
  | _ => false
  end.

Definition isscalar (a : array) : bool :=
  match dims a with
  | [r; c] => (r =? 1) && (c =? 1)
  | _ => false
  end.

(** Linear indexing [a(k)], counted from 1; [None] is the
    out-of-bound index error. *)
Definition index (a : array) (k : Z) : option Z :=
  if k <? 1 then None else elems a !! Z.to_nat (k - 1).

(** The range [a:b] of whole numbers, empty when [b < a]. *)
Definition colon (a b : Z) : list Z :=
  map (fun k => a + Z.of_nat k) (seq 0 (Z.to_nat (b - a + 1))).

Inductive error : Set :=
  | invalid_call              (* print_usage () *)
  | not_scalar_dimensions     (* "speye: M and N must be scalar dimensions" *)
  | index_out_of_bound.       (* m(1), m(2) *)

Inductive outcome (A : Type) : Type :=
  | returns (a : A)
  | raises (e : error).
Arguments returns {A} _.
Arguments raises {A} _.

(** The calls the body distinguishes by [nargin]: one or two
    arguments. *)
Inductive arguments : Set :=
  | one_argument (m : array)
  | two_arguments (m n : array).

(** [speye], with the sparse-matrix constructor
    [sparse (i, j, sv, m, n)] of the interpreter as a parameter: the
    arguments are validated and give the two requested dimensions,
    negative dimensions count as 0, and the ones are placed on the
    first [min (m, n)] diagonal positions. *)
Definition speye {smatrix : Type}
    (sparse : list Z -> list Z -> Z -> Z -> Z -> smatrix)
    (args : arguments) : outcome smatrix :=
  let requested : outcome (Z * Z) :=
    match args with
    | one_argument m =>
        if negb (isvector m) || (2 <? numel m) then raises invalid_call
        else if isscalar m then
          match index m 1 with
          | Some m1 => returns (m1, m1)
          | None => raises index_out_of_bound
          end
        else
          match index m 2, index m 1 with
          | Some n, Some m1 => returns (m1, n)
          | _, _ => raises index_out_of_bound
          end
    | two_arguments m n =>
        if negb (isscalar m && isscalar n) then raises not_scalar_dimensions
        else
          match index m 1, index n 1 with
          | Some m1, Some n1 => returns (m1, n1)
          | _, _ => raises index_out_of_bound
          end
    end in
  match requested with
  | raises e => raises e
  | returns (m, n) =>
      let m := if m <? 0 then 0 else m in
      let n := if n <? 0 then 0 else n in
      let lo := Z.min m n in
      returns (sparse (colon 1 lo) (colon 1 lo) 1 m n)
  end.

(** What the function relies on from [sparse] and what a caller reads
    off the result. *)
Record sparse_library (smatrix : Type) : Type := mk_sparse_library {
  sparse : list Z -> list Z -> Z -> Z -> Z -> smatrix;
  rows : smatrix -> Z;
  columns : smatrix -> Z;
  element : smatrix -> Z -> Z -> Z;
}.
Arguments sparse {smatrix} _ _ _ _ _ _.
Arguments rows {smatrix} _ _.
Arguments columns {smatrix} _ _.
Arguments element {smatrix} _ _ _ _.

(** The documented behaviour of [sparse (i, j, sv, m, n)] on index
    vectors that name distinct positions inside an m-by-n matrix: the
    result is m-by-n, holds [sv] at the named positions and zero
    elsewhere. *)
Definition sparse_contract {smatrix : Type} (lib : sparse_library smatrix)
    : Prop :=
  forall (i j : list Z) (sv m n : Z),
    length i = length j ->
    Forall (fun r => 1 <= r <= m) i ->
    Forall (fun c => 1 <= c <= n) j ->
    List.NoDup (combine i j) ->
    rows lib (sparse lib i j sv m n) = m
    /\ columns lib (sparse lib i j sv m n) = n
    /\ forall r c,
         (In (r, c) (combine i j) -> element lib (sparse lib i j sv m n) r c = sv)
         /\ (~ In (r, c) (combine i j) ->
             element lib (sparse lib i j sv m n) r c = 0).

(** Sparse matrices as triplet lists: the dimensions and the stored
    (row, column, value) entries; an element is the sum of the values
    stored at its position. *)
Record triplets : Set := mk_triplets {
  t_rows : Z;
  t_columns : Z;
  t_entries : list (Z * Z * Z);
}.

Definition triplets_sparse (i j : list Z) (sv m n : Z) : triplets :=
  {| t_rows := m; t_columns := n;
     t_entries := map (fun rc => (rc, sv)) (combine i j) |}.

Definition triplets_element (s : triplets) (r c : Z) : Z :=
  fold_right
    (fun e acc =>
       if (fst (fst e) =? r) && (snd (fst e) =? c) then snd e + acc else acc)
    0 (t_entries s).

Definition triplets_library : sparse_library triplets :=
  {| sparse := triplets_sparse; rows := t_rows; columns := t_columns;
     element := triplets_element |}.
End Speye.

(** * scripts/time/datevec.m *)

Module Datevec.

(** The double arithmetic of the interpreter that the function uses:
    every number of the script is a binary64 double.  [whole z] is the
    double a whole-number literal or count denotes, [mod_] the builtin
    [mod]. *)
Record arithmetic (number : Type) : Type := mk_arithmetic {
  whole : Z -> number;
  add : number -> number -> number;
  sub : number -> number -> number;
  div : number -> number -> number;
  lt : number -> number -> bool;
  mod_ : number -> number -> number;
}.
Arguments whole {number} _ _.
Arguments add {number} _ _ _.
Arguments sub {number} _ _ _.
Arguments div {number} _ _ _.
Arguments lt {number} _ _ _.
Arguments mod_ {number} _ _ _.

(** What binary64 arithmetic keeps for whole numbers of magnitude up to
    2^53: sums and differences that stay in that range are exact,
    comparison is that of the whole numbers, and [mod] by a positive
    whole number is the remainder with the sign of the divisor. *)
Definition exact_on_whole_numbers {number : Type} (ar : arithmetic number)
    : Prop :=
  forall a b : Z,
    Z.abs a <= 2 ^ 53 -> Z.abs b <= 2 ^ 53 ->
    (Z.abs (a + b) <= 2 ^ 53 ->
     add ar (whole ar a) (whole ar b) = whole ar (a + b))
    /\ (Z.abs (a - b) <= 2 ^ 53 ->
        sub ar (whole ar a) (whole ar b) = whole ar (a - b))
    /\ lt ar (whole ar a) (whole ar b) = (a <? b)
    /\ (0 < b -> mod_ ar (whole ar a) (whole ar b) = whole ar (a mod b)).

(** The broken-down time [strptime] hands back. *)
Record tm (number : Type) : Type := mk_tm {
  year : number;
  mon : number;
  mday : number;
  hour : number;
  min : number;
  sec : number;
  usec : number;
}.
Arguments mk_tm {number} _ _ _ _ _ _ _.
Arguments year {number} _.
Arguments mon {number} _.
Arguments mday {number} _.
Arguments hour {number} _.
Arguments min {number} _.
Arguments sec {number} _.
Arguments usec {number} _.

(** One date vector: year, month, day, hour, minute, seconds. *)
Record datevector (number : Type) : Type := mk_datevector {
  y : number;
  m : number;
  d : number;
  h : number;
  mi : number;
  s : number;
}.
Arguments mk_datevector {number} _ _ _ _ _ _.
Arguments y {number} _.
Arguments m {number} _.
Arguments d {number} _.
Arguments h {number} _.
Arguments mi {number} _.
Arguments s {number} _.

(** The part of [__date_str2vec__] that follows the call of
    [strptime]: [tm] and [nc] are what [strptime (ds, f)] returned,
    [columns_ds] is [columns (ds)], [localtime_year] is
    [localtime (time ()).year].  The flags are those computed by
    [__date_vfmt2sfmt__]: [rY] and [ry] the last positions of a four-
    and a two-digit year specifier (0 when absent), [fy] to [fs]
    whether the format names a year, month, day, hour, minute,
    second.  Positions and lengths of strings are kept as [Z]; the
    years, [p] and the other members of the date are doubles.  The
    result is [found] and the date vector. *)
Definition date_str2vec_result {number : Type} (ar : arithmetic number)
    (tm : tm number) (nc columns_ds : Z) (p : number) (rY ry : Z)
    (fy fm fd fh fmi fs exact_match : bool) (localtime_year : number)
    : bool * datevector number :=
  if (negb exact_match && (0 <? nc)) || (nc =? columns_ds + 1) then
    let y := add ar (year tm) (whole ar 1900) in
    let m := add ar (mon tm) (whole ar 1) in
    let d := mday tm in
    let h := hour tm in
    let mi := min tm in
    let s := add ar (sec tm) (div ar (usec tm) (whole ar 1000000)) in
    let y :=
      if rY <? ry then
        let y :=
          if lt ar (whole ar 1999) y then sub ar y (whole ar 2000)
          else sub ar y (whole ar 1900) in
        let y := add ar y (sub ar p (mod_ ar p (whole ar 100))) in
        if lt ar y p then add ar y (whole ar 100) else y
      else y in
    let '(y, m, d) :=
      if negb fy && negb fm && negb fd
      then (add ar localtime_year (whole ar 1900), whole ar 1, whole ar 1)
      else if negb fy && fm && fd
      then (add ar localtime_year (whole ar 1900), m, d)
      else if fy && fm && negb fd then (y, m, whole ar 1)
      else (y, m, d) in
    let '(h, mi, s) :=
      if negb fh && negb fmi && negb fs
      then (whole ar 0, whole ar 0, whole ar 0)
      else if fh && fmi && negb fs then (h, mi, whole ar 0)
      else (h, mi, s) in
    (true, mk_datevector y m d h mi s)
  else
    (false,
     mk_datevector (whole ar 0) (whole ar 0) (whole ar 0) (whole ar 0)
       (whole ar 0) (whole ar 0)).

(** Rounding of a whole number to the nearest binary64 double, ties to
    the even significand: whole numbers up to 2^53 are doubles, larger
    ones are rounded to 53 significant bits. *)
Definition round_binary64 (z : Z) : Z :=
  let a := Z.abs z in
  if a <=? 2 ^ 53 then z
  else
    let ulp := 2 ^ (Z.log2 a - 52) in
    let q := a / ulp in
    let r := a mod ulp in
    let q :=
      if 2 * r <? ulp then q
      else if ulp <? 2 * r then q + 1
      else if Z.even q then q else q + 1 in
    Z.sgn z * (q * ulp).

(** An arithmetic to run the function on: the doubles that hold a whole
    number, each kept as that number, and [None] for any other double.
    Sums and differences are rounded as binary64 rounds them. *)
Definition whole_doubles : arithmetic (option Z) :=
  {| whole := fun z => Some (round_binary64 z);
     add := fun a b =>
       match a, b with
       | Some x, Some y => Some (round_binary64 (x + y))
       | _, _ => None
       end;
     sub := fun a b =>
       match a, b with
       | Some x, Some y => Some (round_binary64 (x - y))
       | _, _ => None
       end;
     div := fun a b =>
       match a, b with
       | Some x, Some y =>
           if (y =? 0) || negb (x mod y =? 0) then None
           else Some (round_binary64 (x / y))
       | _, _ => None
       end;
     lt := fun a b =>
       match a, b with
       | Some x, Some y => x <? y
       | _, _ => false
       end;
     mod_ := fun a b =>
       match a, b with
       | Some x, Some y => if y =? 0 then Some x else Some (x mod y)
       | _, _ => None
       end |}.
End Datevec.

(** * datestr *)

Module Datestr.

(** One row [v(i,:)] of the date-vector matrix: year, month, day,
    hour, minute, seconds, all doubles. *)
Record row : Set := mk_row {
  v1 : float;
  v2 : float;
  v3 : float;
  v4 : float;
  v5 : float;
  v6 : float;
}.

(** The format argument [f] when it is numeric: the empty matrix or a
    whole-number code.  (A format string takes the other branch of
    [isnumeric (f)].) *)
Inductive format : Set :=
  | f_empty
  | f_code (code : Z).

(** The persistent table [dateform]; [dateform{k}] is the entry at
    position [k - 1] of the list. *)
Definition dateform : list string :=
  ["dd-mmm-yyyy HH:MM:SS"; "dd-mmm-yyyy"; "mm/dd/yy"; "mmm"; "m"; "mm";
   "mm/dd"; "dd"; "ddd"; "d"; "yyyy"; "yy"; "mmmyy"; "HH:MM:SS";
   "HH:MM:SS PM"; "HH:MM"; "HH:MM PM"; "QQ-YY"; "QQ"; "dd/mm"; "dd/mm/yy";
   "mmm.dd.yyyy HH:MM:SS"; "mmm.dd.yyyy"; "mm/dd/yyyy"; "dd/mm/yyyy";
   "yy/mm/dd"; "yyyy/mm/dd"; "QQ-YYYY"; "mmmyyyy"; "yyyymmdd";
   "yyyymmddTHHMMSS"; "yyyy-mm-dd HH:MM:SS"]%string.

(** Cell indexing [dateform{k}]; [None] is the index error. *)
Definition dateform_at (k : Z) : option string :=
  if k <? 1 then None else dateform !! Z.to_nat (k - 1).

(** The code chosen for a row when no format is given: 1 (date only)
    when hour, minute and seconds are all zero, 16 (time only) when the
    date is -1/12/31, 0 otherwise. *)
Definition guess (v : row) : Z :=
  if PrimFloat.eqb (v4 v) 0 && PrimFloat.eqb (v5 v) 0 && PrimFloat.eqb (v6 v) 0
  then 1
  else if PrimFloat.eqb (v1 v) (-1) && PrimFloat.eqb (v2 v) 12
          && PrimFloat.eqb (v3 v) 31
  then 16
  else 0.

Inductive error (row_error : Type) : Type :=
  | index_out_of_bound                 (* dateform{f + 1} *)
  | in_row (e : row_error)             (* raised while formatting a row *)
  | dimension_mismatch                 (* [retval; str] *)
  | retval_undefined.                  (* no row: retval never assigned *)
Arguments index_out_of_bound {row_error}.
Arguments in_row {row_error} _.
Arguments dimension_mismatch {row_error}.
Arguments retval_undefined {row_error}.

(** The loop of [datestr] over the rows of [v], started at row [i]
    with the format [f] and the rows collected so far.  [format_row]
    stands for the body's translation of [df] and call of [strftime]
    for one row, [vertcat] for the concatenation [[retval; str]], which
    fails on rows of different width. *)
Fixpoint datestr_rows {row_error : Type}
    (format_row : string -> row -> row_error + string)
    (vertcat : list string -> string -> option (list string))
    (f : format) (i : Z) (v : list row) (retval : list string)
    : error row_error + list string :=
  match v with
  | [] => if i =? 1 then inl retval_undefined else inr retval
  | vi :: rest =>
      let f :=
        match f with
        | f_empty => guess vi
        | f_code c => if c =? -1 then guess vi else c
        end in
      match dateform_at (f + 1) with
      | None => inl index_out_of_bound
      | Some df =>
          match format_row df vi with
          | inl e => inl (in_row e)
          | inr str =>
              if i =? 1
              then datestr_rows format_row vertcat (f_code f) (i + 1) rest [str]
              else
                match vertcat retval str with
                | None => inl dimension_mismatch
                | Some retval =>
                    datestr_rows format_row vertcat (f_code f) (i + 1) rest
                      retval
                end
          end
      end
  end.
End Datestr.

(** * Properties *)

(** ** Tag sets *)

Lemma error_type_all_complete (e : error_type) : In e ErrorType.all.
Proof. destruct e; simpl; tauto. Qed.

Lemma global_type_all_complete (g : global_type) : In g GlobalType.all.
Proof. destruct g; simpl; tauto. Qed.

(** C3, as stated, fails: [EXECUTION_EXC] is a tag of [error_type] and
    names none of the categories the specification lists (and so does
    the [INVALID] sentinel). *)
Lemma error_type_has_unlisted_category :
  exists e : error_type, In e ErrorType.all /\ category_of e = None.
Proof.
  exists ErrorType.EXECUTION_EXC. split.
  - apply error_type_all_complete.
  - reflexivity.
Qed.

(** C3, amended: [error_type] has eleven distinct tags; a tag names one
    of the listed categories unless it is [INVALID] or [EXECUTION_EXC],
    and every listed category is named by some tag. *)
Theorem error_type_taxonomy :
  (forall e : error_type, In e ErrorType.all)
  /\ List.NoDup ErrorType.all
  /\ length ErrorType.all = 11%nat
  /\ (forall e : error_type,
        category_of e = None
        <-> e = ErrorType.INVALID \/ e = ErrorType.EXECUTION_EXC)
  /\ (forall c : spec_error_category,
        exists e : error_type, category_of e = Some c).
Proof.
  split; [exact error_type_all_complete|].
  split.
  { unfold ErrorType.all.
    repeat (constructor; [simpl; intuition discriminate|]). constructor. }
  split; [reflexivity|].
  split.
  - intros e. split.
    + destruct e; simpl; intros H; try discriminate H; auto.
    + intros [-> | ->]; reflexivity.
  - intros c. destruct c.
    + exists ErrorType.ID_UNDEFINED. reflexivity.
    + exists ErrorType.IF_UNDEFINED. reflexivity.
    + exists ErrorType.INDEX_ERROR. reflexivity.
    + exists ErrorType.INVALID_N_EL_RHS_IN_ASSIGNMENT. reflexivity.
    + exists ErrorType.RHS_UNDEF_IN_ASSIGNMENT. reflexivity.
    + exists ErrorType.BAD_ALLOC. reflexivity.
    + exists ErrorType.INTERRUPT_EXC. reflexivity.
    + exists ErrorType.EXIT_EXCEPTION. reflexivity.
Qed.

(** C5, as stated, fails: [global_type] has three tags, and whatever
    class each of them is read as, one of the four listed classes is
    left without a tag; read by name, the class left out is the
    ordinary one. *)
Lemma global_type_misses_a_class :
  length GlobalType.all = 3%nat
  /\ (forall g : global_type, storage_class_of g <> class_ordinary)
  /\ (forall f : global_type -> spec_storage_class,
        exists c : spec_storage_class, forall g : global_type, f g <> c).
Proof.
  split; [reflexivity|]. split.
  - intros g. destruct g; discriminate.
  - intros f.
    destruct (f GlobalType.GLOBAL) eqn:E1, (f GlobalType.PERSISTENT) eqn:E2,
      (f GlobalType.GLOBAL_OR_PERSISTENT) eqn:E3;
      first
        [ exists class_ordinary; intros g; destruct g; congruence
        | exists class_global; intros g; destruct g; congruence
        | exists class_persistent; intros g; destruct g; congruence
        | exists class_global_or_persistent; intros g; destruct g; congruence ].
Qed.

(** C5, amended: [global_type] is closed and consists exactly of the
    three distinct classes global, persistent and global-or-persistent;
    each of these has its tag and no tag stands for an ordinary
    variable. *)
Theorem global_type_three_classes :
  (forall g : global_type,
     g = GlobalType.GLOBAL \/ g = GlobalType.PERSISTENT
     \/ g = GlobalType.GLOBAL_OR_PERSISTENT)
  /\ List.NoDup GlobalType.all
  /\ (forall g1 g2 : global_type,
        storage_class_of g1 = storage_class_of g2 -> g1 = g2)
  /\ (forall c : spec_storage_class,
        c <> class_ordinary <-> exists g : global_type, storage_class_of g = c).
Proof.
  split; [intros g; destruct g; auto|].
  split.
  { unfold GlobalType.all.
    repeat (constructor; [simpl; intuition discriminate|]). constructor. }
  split.
  - intros g1 g2. destruct g1, g2; simpl; intros H; try discriminate H;
      reflexivity.
  - intros c. split.
    + intros Hc. destruct c.
      * contradiction.
      * exists GlobalType.GLOBAL. reflexivity.
      * exists GlobalType.PERSISTENT. reflexivity.
      * exists GlobalType.GLOBAL_OR_PERSISTENT. reflexivity.
    + intros [g <-]. destruct g; discriminate.
Qed.

(** ** Source locations *)

Lemma find_loc_uncovered (ip : Z) (loc_entries : list loc_entry) :
  (forall e, In e loc_entries -> LocEntry.covers e ip = false) ->
  find_loc ip loc_entries = LocEntry.default.
Proof.
  intros Hnone. unfold find_loc.
  destruct (List.find _ loc_entries) as [e|] eqn:Hfind; [|reflexivity].
  apply List.find_some in Hfind. destruct Hfind as [Hin Hcov].
  rewrite (Hnone e Hin) in Hcov. discriminate Hcov.
Qed.

(** C9: a default-constructed [loc_entry] has its four members equal to
    -1; its instruction range is empty; and a lookup for an instruction
    that no entry of the table covers falls back to it and so yields no
    line and column. *)
Theorem loc_entry_default_is_unknown_location
    (ip : Z) (loc_entries : list loc_entry)
    (Hnone : forall e, In e loc_entries -> LocEntry.covers e ip = false) :
  LocEntry.m_ip_start LocEntry.default = -1
  /\ LocEntry.m_ip_end LocEntry.default = -1
  /\ LocEntry.m_col LocEntry.default = -1
  /\ LocEntry.m_line LocEntry.default = -1
  /\ (forall ip' : Z, LocEntry.covers LocEntry.default ip' = false)
  /\ find_loc ip loc_entries = LocEntry.default
  /\ known_location (find_loc ip loc_entries) = None.
Proof.
  repeat (split; [reflexivity|]).
  split.
  - intros ip'. unfold LocEntry.covers. simpl.
    destruct (Z.leb_spec (-1) ip'), (Z.ltb_spec ip' (-1)); simpl; try reflexivity.
    lia.
  - rewrite (find_loc_uncovered ip loc_entries Hnone). split; reflexivity.
Qed.

Lemma loc_entry_default_is_unknown_location_witness :
  let table := [LocEntry.mk_loc_entry 0 3 4 1; LocEntry.mk_loc_entry 3 9 2 2] in
  find_loc 12 table = LocEntry.default
  /\ known_location (find_loc 12 table) = None
  /\ known_location (find_loc 4 table) = Some (2, 2).
Proof.
  intros table.
  pose proof (loc_entry_default_is_unknown_location 12 table) as H.
  split; [|split].
  - apply H. intros e [<- | [<- | []]]; reflexivity.
  - apply H. intros e [<- | [<- | []]]; reflexivity.
  - reflexivity.
Defined.

(** ** Opcodes *)

Lemma INSTR_of_code_INSTR_code (i : INSTR) :
  INSTR_of_code (INSTR_code i) = Some i.
Proof. destruct i; reflexivity. Qed.

(** X1: every opcode fits the [unsigned char] the instruction stream
    stores it in: the enumerator values run from 0 ([POP]) up to that
    of [WIDE], below 256, no two opcodes share one, and reading the
    byte back gives the opcode. *)
Theorem INSTR_code_is_a_byte (i j : INSTR) :
  0 <= INSTR_code i <= INSTR_code WIDE
  /\ INSTR_code WIDE < 256
  /\ fetch_opcode [INSTR_code i] 0 = Some i
  /\ (INSTR_code i = INSTR_code j <-> i = j).
Proof.
  split; [destruct i; simpl; lia|].
  split; [reflexivity|].
  split; [destruct i; reflexivity|].
  split; [|intros ->; reflexivity].
  intros Hcode.
  assert (Hji : Some i = Some j).
  { rewrite <- (INSTR_of_code_INSTR_code i), Hcode.
    apply INSTR_of_code_INSTR_code. }
  injection Hji as ->. reflexivity.
Qed.

(** ** Protected ranges *)

Lemma stmt_nested_ind (P : stmt -> Prop) :
  (forall code, P (s_expr code)) ->
  (forall cond then_branch else_branch,
     Forall P then_branch -> Forall P else_branch ->
     P (s_if cond then_branch else_branch)) ->
  (forall range body, Forall P body -> P (s_for range body)) ->
  (forall body handler,
     Forall P body -> Forall P handler -> P (s_try body handler)) ->
  (forall body cleanup,
     Forall P body -> Forall P cleanup -> P (s_unwind_protect body cleanup)) ->
  forall s, P s.
Proof.
  intros Hexpr Hif Hfor Htry Hprotect.
  fix IH 1.
  assert (Hall : forall ss : list stmt, Forall P ss).
  { intros ss. induction ss as [|s ss IHss]; constructor; [apply IH|exact IHss]. }
  intros [code|cond t e|range body|body handler|body cleanup].
  - apply Hexpr.
  - apply Hif; apply Hall.
  - apply Hfor; apply Hall.
  - apply Htry; apply Hall.
  - apply Hprotect; apply Hall.
Qed.

Lemma code_size_emit (b : Z) (em : emitter) :
  code_size (emit b em) = code_size em + 1.
Proof. unfold code_size, emit. simpl. rewrite length_app. simpl. lia. Qed.

Lemma code_size_emit_instr (i : INSTR) (em : emitter) :
  code_size (emit_instr i em) = code_size em + 1.
Proof. apply code_size_emit. Qed.

Lemma code_size_emit_short (v : Z) (em : emitter) :
  code_size (emit_short v em) = code_size em + 2.
Proof. unfold emit_short. rewrite !code_size_emit. lia. Qed.

Lemma code_size_emit_all (bs : list Z) (em : emitter) :
  code_size (emit_all bs em) = code_size em + Z.of_nat (length bs).
Proof. unfold code_size, emit_all. simpl. rewrite length_app. lia. Qed.

Lemma code_size_patch_short (at_ v : Z) (em : emitter) :
  code_size (patch_short at_ v em) = code_size em.
Proof. unfold code_size, patch_short. simpl. rewrite !length_insert. reflexivity. Qed.

Lemma code_size_add_unwind_entry (e : unwind_entry) (em : emitter) :
  code_size (add_unwind_entry e em) = code_size em.
Proof. reflexivity. Qed.

Lemma range_within_widen (lo hi lo' hi' : Z) (e : unwind_entry) :
  lo' <= lo -> hi <= hi' -> range_within lo hi e -> range_within lo' hi' e.
Proof. unfold range_within. lia. Qed.

Lemma no_partial_overlap_sym (a b : unwind_entry) :
  no_partial_overlap a b -> no_partial_overlap b a.
Proof. unfold no_partial_overlap, nested_in, disjoint_ranges. lia. Qed.

(** Code emitted without touching the entry table. *)
Lemma extends_by_code (em em' : emitter) :
  em_unwind em' = em_unwind em ->
  code_size em <= code_size em' ->
  extends_by em em' [].
Proof.
  intros Hu Hsize. unfold extends_by. rewrite Hu, app_nil_r.
  repeat split; [exact Hsize|constructor|].
  intros a b [].
Qed.

(** Two stretches in a row: entries of the first end where the entries
    of the second begin. *)
Lemma extends_by_seq (em1 em2 em3 : emitter) (n1 n2 : list unwind_entry) :
  extends_by em1 em2 n1 -> extends_by em2 em3 n2 ->
  extends_by em1 em3 (n1 ++ n2).
Proof.
  intros (Hu1 & Hs1 & Hall1 & Hlam1) (Hu2 & Hs2 & Hall2 & Hlam2).
  unfold extends_by. split; [|split; [|split]].
  - rewrite Hu2, Hu1, app_assoc. reflexivity.
  - lia.
  - apply Forall_app. split.
    + eapply Forall_impl; [exact Hall1|]. intros e (Hp & Hw & Hk).
      repeat split; try assumption.
      * unfold range_within in *. lia.
      * unfold range_within in *. lia.
    + eapply Forall_impl; [exact Hall2|]. intros e (Hp & Hw & Hk).
      repeat split; try assumption.
      * unfold range_within in *. lia.
      * unfold range_within in *. lia.
  - intros a b Ha Hb.
    rewrite List.Forall_forall in Hall1, Hall2.
    apply in_app_or in Ha. apply in_app_or in Hb.
    destruct Ha as [Ha|Ha], Hb as [Hb|Hb].
    + apply Hlam1; assumption.
    + destruct (Hall1 a Ha) as (_ & Hwa & _). destruct (Hall2 b Hb) as (_ & Hwb & _).
      unfold no_partial_overlap, disjoint_ranges, range_within in *. lia.
    + destruct (Hall2 a Ha) as (_ & Hwa & _). destruct (Hall1 b Hb) as (_ & Hwb & _).
      unfold no_partial_overlap, disjoint_ranges, range_within in *. lia.
    + apply Hlam2; assumption.
Qed.

(** Recording the entry of a construct once its code is out: every
    entry its parts recorded must lie inside the new range or beside
    it. *)
Lemma extends_by_entry (em em' : emitter) (n : list unwind_entry)
    (e : unwind_entry) :
  extends_by em em' n ->
  proper_range e ->
  range_within (code_size em) (code_size em') e ->
  protected_kind (m_unwind_entry_type e) ->
  (forall x, In x n -> no_partial_overlap x e) ->
  extends_by em (add_unwind_entry e em') (n ++ [e]).
Proof.
  intros (Hu & Hs & Hall & Hlam) Hp Hw Hk Hside.
  unfold extends_by. rewrite code_size_add_unwind_entry.
  split; [|split; [|split]].
  - simpl. rewrite Hu, app_assoc. reflexivity.
  - exact Hs.
  - apply Forall_app. split; [exact Hall|].
    constructor; [|constructor]. split; [exact Hp|split; [exact Hw|exact Hk]].
  - intros a b Ha Hb.
    apply in_app_or in Ha. apply in_app_or in Hb.
    destruct Ha as [Ha|[<-|[]]], Hb as [Hb|[<-|[]]].
    + apply Hlam; assumption.
    + apply Hside; assumption.
    + apply no_partial_overlap_sym, Hside; assumption.
    + left. unfold nested_in. lia.
Qed.

Lemma compile_block_extends (depth : Z) (ss : list stmt) :
  Forall (fun s => forall depth em, exists n, extends_by em (compile_stmt depth s em) n) ss ->
  forall em, exists n, extends_by em (compile_block depth ss em) n.
Proof.
  unfold compile_block.
  induction 1 as [|s ss Hs _ IH]; intros em; simpl.
  - exists []. apply extends_by_code; [reflexivity|lia].
  - destruct (Hs depth em) as [n1 H1].
    destruct (IH (compile_stmt depth s em)) as [n2 H2].
    exists (n1 ++ n2). eapply extends_by_seq; eassumption.
Qed.

Lemma extends_by_then_code (em1 em2 em3 : emitter) (n : list unwind_entry) :
  extends_by em1 em2 n ->
  em_unwind em3 = em_unwind em2 -> code_size em2 <= code_size em3 ->
  extends_by em1 em3 n.
Proof.
  intros H12 Hu Hs. rewrite <- (app_nil_r n).
  eapply extends_by_seq; [exact H12|]. apply extends_by_code; assumption.
Qed.

Lemma extends_by_after_code (em1 em2 em3 : emitter) (n : list unwind_entry) :
  em_unwind em2 = em_unwind em1 -> code_size em1 <= code_size em2 ->
  extends_by em2 em3 n ->
  extends_by em1 em3 n.
Proof.
  intros Hu Hs H23. change n with ([] ++ n).
  eapply extends_by_seq; [|exact H23]. apply extends_by_code; assumption.
Qed.

Lemma inside_no_partial_overlap (lo hi : Z) (x e : unwind_entry) :
  range_within lo hi x -> m_ip_start e <= lo -> hi <= m_ip_end e ->
  no_partial_overlap x e.
Proof. unfold range_within, no_partial_overlap, nested_in. lia. Qed.

Lemma beside_no_partial_overlap (lo hi : Z) (x e : unwind_entry) :
  range_within lo hi x -> m_ip_end e <= lo ->
  no_partial_overlap x e.
Proof. unfold range_within, no_partial_overlap, disjoint_ranges. lia. Qed.

Lemma extends_by_within (em em' : emitter) (n : list unwind_entry)
    (x : unwind_entry) :
  extends_by em em' n -> In x n ->
  range_within (code_size em) (code_size em') x.
Proof.
  intros (_ & _ & Hall & _) Hx.
  rewrite List.Forall_forall in Hall. apply (Hall x Hx).
Qed.

Lemma extends_by_size (em em' : emitter) (n : list unwind_entry) :
  extends_by em em' n -> code_size em <= code_size em'.
Proof. intros (_ & Hs & _). exact Hs. Qed.

Lemma compile_stmt_if (depth : Z) (cond : list Z) (t e : list stmt) (em : emitter) :
  compile_stmt depth (s_if cond t e) em
  = let em1 := emit_short 0 (emit_instr JMP_IFN (emit_all cond em)) in
    let em2 := compile_block depth t em1 in
    let em3 := emit_short 0 (emit_instr JMP em2) in
    let em4 := patch_short (code_size em1 - 2) (code_size em3) em3 in
    let em5 := compile_block depth e em4 in
    patch_short (code_size em3 - 2) (code_size em5) em5.
Proof.
  cbv zeta. unfold compile_block. simpl.
  rewrite !code_size_emit_short, !code_size_emit_instr.
  repeat f_equal; lia.
Qed.

Lemma compile_stmt_for (depth : Z) (range : list Z) (body : list stmt)
    (em : emitter) :
  compile_stmt depth (s_for range body) em
  = let em1 := emit_instr FOR_SETUP (emit_all range em) in
    let em2 := emit_short 0 (emit_instr FOR_COND em1) in
    let em3 := compile_block (depth + for_loop_cells) body em2 in
    let em4 := emit_short (code_size em1) (emit_instr JMP em3) in
    add_unwind_entry
      {| m_ip_start := code_size em1; m_ip_end := code_size em4;
         m_ip_target := code_size em4; m_stack_depth := depth;
         m_unwind_entry_type := UnwindEntryType.FOR_LOOP |}
      (patch_short (code_size em1 + 1) (code_size em4) em4).
Proof.
  cbv zeta. unfold compile_block. simpl.
  rewrite !code_size_emit_instr. reflexivity.
Qed.

Lemma compile_stmt_try (depth : Z) (body handler : list stmt) (em : emitter) :
  compile_stmt depth (s_try body handler) em
  = let em1 := compile_block depth body em in
    let em2 := emit_short 0 (emit_instr JMP em1) in
    let em3 := compile_block depth handler (emit_instr POP em2) in
    add_unwind_entry
      {| m_ip_start := code_size em; m_ip_end := code_size em2;
         m_ip_target := code_size em2; m_stack_depth := depth;
         m_unwind_entry_type := UnwindEntryType.TRY_CATCH |}
      (patch_short (code_size em2 - 2) (code_size em3) em3).
Proof.
  cbv zeta. unfold compile_block. simpl.
  rewrite !code_size_emit_short, !code_size_emit_instr.
  repeat f_equal; lia.
Qed.

Lemma compile_stmt_unwind_protect (depth : Z) (body cleanup : list stmt)
    (em : emitter) :
  compile_stmt depth (s_unwind_protect body cleanup) em
  = let em1 := compile_block depth body em in
    let em2 := emit_instr PUSH_NIL em1 in
    let em3 := compile_block (depth + 1) cleanup em2 in
    add_unwind_entry
      {| m_ip_start := code_size em; m_ip_end := code_size em2;
         m_ip_target := code_size em2; m_stack_depth := depth;
         m_unwind_entry_type := UnwindEntryType.UNWIND_PROTECT |}
      (emit_instr THROW_IFERROBJ em3).
Proof. reflexivity. Qed.

(** Every statement adds a well-nested family of proper, protected
    ranges inside its own code. *)
Lemma compile_stmt_extends (s : stmt) :
  forall depth em, exists n, extends_by em (compile_stmt depth s em) n.
Proof.
  induction s as [code|cond t e IHt IHe|range body IHb|body handler IHb IHh
                 |body cleanup IHb IHc] using stmt_nested_ind;
    intros depth em.
  - exists []. apply extends_by_code; [reflexivity|].
    simpl. rewrite code_size_emit_all. lia.
  - rewrite compile_stmt_if. cbv zeta.
    set (em1 := emit_short 0 (emit_instr JMP_IFN (emit_all cond em))).
    destruct (compile_block_extends depth t IHt em1) as [nt Ht].
    set (em2 := compile_block depth t em1) in *.
    set (em3 := emit_short 0 (emit_instr JMP em2)).
    set (em4 := patch_short _ _ em3).
    destruct (compile_block_extends depth e IHe em4) as [ne He].
    set (em5 := compile_block depth e em4) in *.
    assert (S1 : code_size em1 = code_size em + Z.of_nat (length cond) + 3).
    { unfold em1. rewrite code_size_emit_short, code_size_emit_instr,
        code_size_emit_all. lia. }
    assert (S3 : code_size em3 = code_size em2 + 3).
    { unfold em3. rewrite code_size_emit_short, code_size_emit_instr. lia. }
    assert (S4 : code_size em4 = code_size em3).
    { apply code_size_patch_short. }
    exists (nt ++ ne).
    apply extends_by_then_code with (em2 := em5);
      [|reflexivity|rewrite code_size_patch_short; lia].
    apply extends_by_seq with (em2 := em4); [|exact He].
    apply extends_by_then_code with (em2 := em2); [|reflexivity|lia].
    apply extends_by_after_code with (em2 := em1); [reflexivity|lia|exact Ht].
  - rewrite compile_stmt_for. cbv zeta.
    set (em1 := emit_instr FOR_SETUP (emit_all range em)).
    set (em2 := emit_short 0 (emit_instr FOR_COND em1)).
    destruct (compile_block_extends (depth + for_loop_cells) body IHb em2)
      as [nb Hb].
    set (em3 := compile_block (depth + for_loop_cells) body em2) in *.
    set (em4 := emit_short (code_size em1) (emit_instr JMP em3)).
    assert (S1 : code_size em1 = code_size em + Z.of_nat (length range) + 1).
    { unfold em1. rewrite code_size_emit_instr, code_size_emit_all. lia. }
    assert (S2 : code_size em2 = code_size em1 + 3).
    { unfold em2. rewrite code_size_emit_short, code_size_emit_instr. lia. }
    assert (S4 : code_size em4 = code_size em3 + 3).
    { unfold em4. rewrite code_size_emit_short, code_size_emit_instr. lia. }
    pose proof (extends_by_size _ _ _ Hb) as S3.
    eexists.
    apply extends_by_entry.
    + apply extends_by_then_code with (em2 := em3);
        [|reflexivity|rewrite code_size_patch_short; lia].
      apply extends_by_after_code with (em2 := em2); [reflexivity|lia|exact Hb].
    + unfold proper_range. simpl. lia.
    + unfold range_within. simpl. rewrite code_size_patch_short. lia.
    + left. reflexivity.
    + intros x Hx. pose proof (extends_by_within _ _ _ x Hb Hx) as Hw.
      eapply inside_no_partial_overlap; [exact Hw|simpl; lia..].
  - rewrite compile_stmt_try. cbv zeta.
    destruct (compile_block_extends depth body IHb em) as [nb Hb].
    set (em1 := compile_block depth body em) in *.
    set (em2 := emit_short 0 (emit_instr JMP em1)).
    destruct (compile_block_extends depth handler IHh (emit_instr POP em2))
      as [nh Hh].
    set (em3 := compile_block depth handler (emit_instr POP em2)) in *.
    assert (S2 : code_size em2 = code_size em1 + 3).
    { unfold em2. rewrite code_size_emit_short, code_size_emit_instr. lia. }
    pose proof (extends_by_size _ _ _ Hb) as S1.
    pose proof (extends_by_size _ _ _ Hh) as S3.
    rewrite code_size_emit_instr in S3.
    eexists.
    apply extends_by_entry.
    + apply extends_by_then_code with (em2 := em3);
        [|reflexivity|rewrite code_size_patch_short; lia].
      apply extends_by_seq with (em2 := emit_instr POP em2); [|exact Hh].
      apply extends_by_then_code with (em2 := em1);
        [exact Hb|reflexivity|rewrite code_size_emit_instr; lia].
    + unfold proper_range. simpl. lia.
    + unfold range_within. simpl. rewrite code_size_patch_short. lia.
    + right. left. reflexivity.
    + intros x Hx. apply in_app_or in Hx. destruct Hx as [Hx|Hx].
      * pose proof (extends_by_within _ _ _ x Hb Hx) as Hw.
        eapply inside_no_partial_overlap; [exact Hw|simpl; lia..].
      * pose proof (extends_by_within _ _ _ x Hh Hx) as Hw.
        rewrite code_size_emit_instr in Hw.
        eapply beside_no_partial_overlap; [exact Hw|simpl; lia].
  - rewrite compile_stmt_unwind_protect. cbv zeta.
    destruct (compile_block_extends depth body IHb em) as [nb Hb].
    set (em1 := compile_block depth body em) in *.
    set (em2 := emit_instr PUSH_NIL em1).
    destruct (compile_block_extends (depth + 1) cleanup IHc em2) as [nc Hc].
    set (em3 := compile_block (depth + 1) cleanup em2) in *.
    assert (S2 : code_size em2 = code_size em1 + 1).
    { apply code_size_emit_instr. }
    pose proof (extends_by_size _ _ _ Hb) as S1.
    pose proof (extends_by_size _ _ _ Hc) as S3.
    eexists.
    apply extends_by_entry.
    + apply extends_by_then_code with (em2 := em3);
        [|reflexivity|rewrite code_size_emit_instr; lia].
      apply extends_by_seq with (em2 := em2); [|exact Hc].
      apply extends_by_then_code with (em2 := em1); [exact Hb|reflexivity|lia].
    + unfold proper_range. simpl. lia.
    + unfold range_within. simpl. rewrite code_size_emit_instr. lia.
    + right. right. reflexivity.
    + intros x Hx. apply in_app_or in Hx. destruct Hx as [Hx|Hx].
      * pose proof (extends_by_within _ _ _ x Hb Hx) as Hw.
        eapply inside_no_partial_overlap; [exact Hw|simpl; lia..].
      * pose proof (extends_by_within _ _ _ x Hc Hx) as Hw.
        eapply beside_no_partial_overlap; [exact Hw|simpl; lia].
Qed.

Lemma compile_unit_entries {octave_value Cell tree : Type}
    (name file : string) (body : list stmt) (data : list octave_value)
    (ids : list string) (locs : list loc_entry)
    (argnames : list (arg_name_entry Cell)) :
  extends_by empty_emitter (compile_block 0 body empty_emitter)
    (m_unwind_entries
       (m_unwind_data
          (compile_unit (tree := tree) name file body data ids locs argnames))).
Proof.
  assert (Hall : Forall (fun s => forall depth em, exists n,
                           extends_by em (compile_stmt depth s em) n) body).
  { apply List.Forall_forall. intros s _. apply compile_stmt_extends. }
  destruct (compile_block_extends 0 body Hall empty_emitter) as [n Hn].
  assert (Heq : m_unwind_entries
                  (m_unwind_data
                     (compile_unit (tree := tree) name file body data ids locs
                        argnames)) = n).
  { simpl. destruct Hn as (Hu & _). rewrite Hu. reflexivity. }
  rewrite Heq. exact Hn.
Qed.

(** C2: in every compiled unit each unwind entry guards a range with
    [m_ip_start < m_ip_end], and any two entries of the unit guard
    ranges of which one contains the other or which are disjoint. *)
Theorem unwind_entries_proper_and_nested {octave_value Cell tree : Type}
    (name file : string) (body : list stmt) (data : list octave_value)
    (ids : list string) (locs : list loc_entry)
    (argnames : list (arg_name_entry Cell)) (a b : unwind_entry)
    (Ha : In a (m_unwind_entries
                  (m_unwind_data
                     (compile_unit (tree := tree) name file body data ids locs
                        argnames))))
    (Hb : In b (m_unwind_entries
                  (m_unwind_data
                     (compile_unit (tree := tree) name file body data ids locs
                        argnames)))) :
  m_ip_start a < m_ip_end a
  /\ (nested_in a b \/ nested_in b a \/ disjoint_ranges a b).
Proof.
  destruct (compile_unit_entries (tree := tree) name file body data ids locs
              argnames) as (_ & _ & Hall & Hlam).
  rewrite List.Forall_forall in Hall. split.
  - destruct (Hall a Ha) as (Hp & _). exact Hp.
  - apply (Hlam a b Ha Hb).
Qed.

Lemma unwind_entries_proper_and_nested_witness :
  let body :=
    [s_for [1] [s_try [s_expr [2]] []; s_unwind_protect [s_expr [2; 3]] []]] in
  let try_entry := mk_unwind_entry 5 9 9 3 UnwindEntryType.TRY_CATCH in
  let for_entry := mk_unwind_entry 2 17 17 0 UnwindEntryType.FOR_LOOP in
  m_unwind_entries
    (m_unwind_data
       (compile_unit (octave_value := nat) (Cell := unit) (tree := unit)
          "f" "f.m" body [] [] [] []))
  = [try_entry;
     mk_unwind_entry 10 13 13 3 UnwindEntryType.UNWIND_PROTECT;
     for_entry]
  /\ m_ip_start try_entry < m_ip_end try_entry
  /\ (nested_in try_entry for_entry \/ nested_in for_entry try_entry
      \/ disjoint_ranges try_entry for_entry).
Proof.
  intros body try_entry for_entry.
  split; [reflexivity|].
  apply (unwind_entries_proper_and_nested (octave_value := nat) (Cell := unit)
           (tree := unit) "f" "f.m" body [] [] [] [] try_entry for_entry).
  - simpl. auto.
  - simpl. auto.
Defined.

(** C6: an unwind entry is its guarded range (start and end), its
    resume/handler target, the operand-stack depth to restore and its
    kind, and nothing more; and the kind of every entry the compiler
    records for a protected construct is a loop, a try/catch or an
    unwind-protect, never [INVALID]. *)
Theorem unwind_entry_components_and_kind {octave_value Cell tree : Type}
    (name file : string) (body : list stmt) (data : list octave_value)
    (ids : list string) (locs : list loc_entry)
    (argnames : list (arg_name_entry Cell)) (e : unwind_entry)
    (He : In e (m_unwind_entries
                  (m_unwind_data
                     (compile_unit (tree := tree) name file body data ids locs
                        argnames)))) :
  e = mk_unwind_entry (m_ip_start e) (m_ip_end e) (m_ip_target e)
        (m_stack_depth e) (m_unwind_entry_type e)
  /\ (m_unwind_entry_type e = UnwindEntryType.FOR_LOOP
      \/ m_unwind_entry_type e = UnwindEntryType.TRY_CATCH
      \/ m_unwind_entry_type e = UnwindEntryType.UNWIND_PROTECT)
  /\ m_unwind_entry_type e <> UnwindEntryType.INVALID.
Proof.
  destruct (compile_unit_entries (tree := tree) name file body data ids locs
              argnames) as (_ & _ & Hall & _).
  rewrite List.Forall_forall in Hall.
  destruct (Hall e He) as (_ & _ & Hk).
  split; [destruct e; reflexivity|]. split; [exact Hk|].
  destruct Hk as [-> | [-> | ->]]; discriminate.
Qed.

Lemma unwind_entry_components_and_kind_witness :
  let e := mk_unwind_entry 0 4 4 0 UnwindEntryType.UNWIND_PROTECT in
  In e (m_unwind_entries
          (m_unwind_data
             (compile_unit (octave_value := nat) (Cell := unit) (tree := unit)
                "g" "g.m" [s_unwind_protect [s_expr [2; 3; 0]] [s_expr [0]]]
                [] [] [] [])))
  /\ m_unwind_entry_type e <> UnwindEntryType.INVALID.
Proof.
  intros e.
  assert (He : In e (m_unwind_entries
                       (m_unwind_data
                          (compile_unit (octave_value := nat) (Cell := unit)
                             (tree := unit) "g" "g.m"
                             [s_unwind_protect [s_expr [2; 3; 0]] [s_expr [0]]]
                             [] [] [] [])))).
  { simpl. auto. }
  split; [exact He|].
  apply (unwind_entry_components_and_kind (octave_value := nat) (Cell := unit)
           (tree := unit) "g" "g.m"
           [s_unwind_protect [s_expr [2; 3; 0]] [s_expr [0]]] [] [] [] [] e He).
Defined.

(** * speye *)

Lemma colon_spec (a b k : Z) : In k (Speye.colon a b) <-> a <= k <= b.
Proof.
  unfold Speye.colon. rewrite in_map_iff. split.
  - intros (i & <- & Hi). apply in_seq in Hi. lia.
  - intros Hk. exists (Z.to_nat (k - a)). split; [lia|].
    apply in_seq. lia.
Qed.

Lemma colon_NoDup (a b : Z) : List.NoDup (Speye.colon a b).
Proof.
  unfold Speye.colon. apply Finite.Injective_map_NoDup.
  - intros i j Hij. lia.
  - apply seq_NoDup.
Qed.

Lemma colon_empty (a b : Z) : b < a -> Speye.colon a b = [].
Proof.
  intros Hlt. unfold Speye.colon.
  replace (Z.to_nat (b - a + 1)) with 0%nat by lia. reflexivity.
Qed.

Lemma combine_diag_spec (l : list Z) (r c : Z) :
  In (r, c) (combine l l) <-> r = c /\ In r l.
Proof.
  induction l as [|x l IH]; simpl; [tauto|].
  rewrite IH. split.
  - intros [Heq | [-> Hin]]; [injection Heq as <- <-|]; auto.
  - intros [-> [-> | Hin]]; auto.
Qed.

Lemma combine_diag_NoDup (l : list Z) :
  List.NoDup l -> List.NoDup (combine l l).
Proof.
  induction 1 as [|x l Hx _ IH]; simpl; constructor; [|exact IH].
  rewrite combine_diag_spec. tauto.
Qed.

(** The triplet-list matrices keep the contract of [sparse]. *)
Lemma triplets_contract : Speye.sparse_contract Speye.triplets_library.
Proof.
  intros i j sv m n _ _ _ Hnodup. simpl.
  split; [reflexivity|]. split; [reflexivity|].
  intros r c. unfold Speye.triplets_element, Speye.triplets_sparse. simpl.
  induction (combine i j) as [|[r0 c0] l IH]; simpl.
  - split; [intros []|reflexivity].
  - apply List.NoDup_cons_iff in Hnodup. destruct Hnodup as [Hnotin Hnodup].
    destruct (IH Hnodup) as [IHin IHout].
    destruct (Z.eqb_spec r0 r) as [->|Hr], (Z.eqb_spec c0 c) as [->|Hc]; simpl.
    + split.
      * intros _. rewrite (IHout Hnotin). lia.
      * intros Hout. exfalso. apply Hout. left. reflexivity.
    + split.
      * intros [Heq|Hin]; [congruence|auto].
      * intros Hout. apply IHout. tauto.
    + split.
      * intros [Heq|Hin]; [congruence|auto].
      * intros Hout. apply IHout. tauto.
    + split.
      * intros [Heq|Hin]; [congruence|auto].
      * intros Hout. apply IHout. tauto.
Qed.

(** X2: for whole numbers m and n, [speye (m, n)] is the matrix with
    [max (m, 0)] rows and [max (n, 0)] columns that holds 1 on its
    diagonal and 0 everywhere else, whenever [sparse] keeps its
    documented contract; [speye ([m, n])] with a row or a column vector
    is the same matrix, and so is [speye (m)] when n = m. *)
Theorem speye_is_the_identity {smatrix : Type}
    (lib : Speye.sparse_library smatrix)
    (Hlib : Speye.sparse_contract lib) (m n : Z) :
  exists s : smatrix,
    Speye.speye (Speye.sparse lib)
      (Speye.two_arguments (Speye.scalar m) (Speye.scalar n))
    = Speye.returns s
    /\ Speye.speye (Speye.sparse lib)
         (Speye.one_argument (Speye.row_vector [m; n]))
       = Speye.returns s
    /\ Speye.speye (Speye.sparse lib)
         (Speye.one_argument (Speye.column_vector [m; n]))
       = Speye.returns s
    /\ (m = n ->
        Speye.speye (Speye.sparse lib) (Speye.one_argument (Speye.scalar m))
        = Speye.returns s)
    /\ Speye.rows lib s = Z.max m 0
    /\ Speye.columns lib s = Z.max n 0
    /\ forall r c,
         1 <= r <= Z.max m 0 -> 1 <= c <= Z.max n 0 ->
         Speye.element lib s r c = if r =? c then 1 else 0.
Proof.
  unfold Speye.speye. simpl.
  assert (Hm : (if m <? 0 then 0 else m) = Z.max m 0).
  { destruct (Z.ltb_spec m 0); lia. }
  assert (Hn : (if n <? 0 then 0 else n) = Z.max n 0).
  { destruct (Z.ltb_spec n 0); lia. }
  rewrite Hm, Hn.
  eexists. split; [reflexivity|].
  split; [reflexivity|]. split; [reflexivity|].
  split; [intros <-; reflexivity|].
  set (lo := Z.min (Z.max m 0) (Z.max n 0)).
  destruct (Hlib (Speye.colon 1 lo) (Speye.colon 1 lo) 1 (Z.max m 0) (Z.max n 0))
    as (Hrows & Hcols & Helem).
  - reflexivity.
  - apply List.Forall_forall. intros r Hr. apply colon_spec in Hr. lia.
  - apply List.Forall_forall. intros c Hc. apply colon_spec in Hc. lia.
  - apply combine_diag_NoDup, colon_NoDup.
  - split; [exact Hrows|]. split; [exact Hcols|].
    intros r c Hr Hc. destruct (Helem r c) as [Hin Hout].
    destruct (Z.eqb_spec r c) as [->|Hne].
    + apply Hin. apply combine_diag_spec. split; [reflexivity|].
      apply colon_spec. lia.
    + apply Hout. rewrite combine_diag_spec. tauto.
Qed.

Lemma speye_is_the_identity_witness :
  exists s : Speye.triplets,
    Speye.speye Speye.triplets_sparse
      (Speye.two_arguments (Speye.scalar 2) (Speye.scalar 4))
    = Speye.returns s
    /\ Speye.t_rows s = 2 /\ Speye.t_columns s = 4
    /\ Speye.triplets_element s 2 2 = 1
    /\ Speye.triplets_element s 2 3 = 0.
Proof.
  destruct (speye_is_the_identity Speye.triplets_library triplets_contract 2 4)
    as (s & Hs & _ & _ & _ & Hrows & Hcols & Helem).
  exists s. split; [exact Hs|]. split; [exact Hrows|]. split; [exact Hcols|].
  split.
  - apply (Helem 2 2); simpl; lia.
  - apply (Helem 2 3); simpl; lia.
Defined.

(** X3: [speye] rejects a single argument exactly when it is not a
    vector or has more than two elements (the usage error), and rejects
    two arguments exactly when one of them is not a scalar ("M and N
    must be scalar dimensions"). *)
Theorem speye_argument_errors {smatrix : Type}
    (sparse : list Z -> list Z -> Z -> Z -> Z -> smatrix)
    (args : Speye.arguments) :
  (Speye.speye sparse args = Speye.raises Speye.invalid_call
   <-> exists m, args = Speye.one_argument m
                 /\ (Speye.isvector m = false \/ 2 < Speye.numel m))
  /\ (Speye.speye sparse args = Speye.raises Speye.not_scalar_dimensions
      <-> exists m n, args = Speye.two_arguments m n
                      /\ (Speye.isscalar m = false \/ Speye.isscalar n = false)).
Proof.
  unfold Speye.speye. destruct args as [m|m n].
  - split.
    + destruct (Speye.isvector m) eqn:Hv; simpl.
      * destruct (Z.ltb_spec 2 (Speye.numel m)) as [Hgt|Hle].
        -- split; [|reflexivity]. intros _. exists m. auto.
        -- split.
           ++ intros Hcall. exfalso.
              destruct (Speye.isscalar m).
              ** destruct (Speye.index m 1); discriminate Hcall.
              ** destruct (Speye.index m 2); [|discriminate Hcall].
                 destruct (Speye.index m 1); discriminate Hcall.
           ++ intros (m' & Heq & [Hnv | Hgt]); injection Heq as <-;
                [congruence|lia].
      * split; [|reflexivity]. intros _. exists m. auto.
    + split.
      * intros Hcall. exfalso.
        destruct (negb (Speye.isvector m) || (2 <? Speye.numel m));
          [discriminate Hcall|].
        destruct (Speye.isscalar m).
        -- destruct (Speye.index m 1); discriminate Hcall.
        -- destruct (Speye.index m 2); [|discriminate Hcall].
           destruct (Speye.index m 1); discriminate Hcall.
      * intros (m' & n' & Heq & _). discriminate Heq.
  - split.
    + split.
      * intros Hcall. exfalso.
        destruct (Speye.isscalar m && Speye.isscalar n); simpl in Hcall;
          [|discriminate Hcall].
        destruct (Speye.index m 1); [|discriminate Hcall].
        destruct (Speye.index n 1); discriminate Hcall.
      * intros (m' & Heq & _). discriminate Heq.
    + destruct (Speye.isscalar m) eqn:Hm, (Speye.isscalar n) eqn:Hn; simpl.
      * split.
        -- intros Hcall. exfalso.
           destruct (Speye.index m 1); [|discriminate Hcall].
           destruct (Speye.index n 1); discriminate Hcall.
        -- intros (m' & n' & Heq & [H|H]); injection Heq as <- <-; congruence.
      * split; [|reflexivity]. intros _. exists m, n. auto.
      * split; [|reflexivity]. intros _. exists m, n. auto.
      * split; [|reflexivity]. intros _. exists m, n. auto.
Qed.

(** X4: negative dimensions count as zero: [speye (m, n)] is
    [speye (max (m, 0), max (n, 0))], and as soon as one of the
    dimensions is zero or negative no position is filled: the result is
    [sparse ([], [], 1, max (m, 0), max (n, 0))]. *)
Theorem speye_nonpositive_dimension {smatrix : Type}
    (sparse : list Z -> list Z -> Z -> Z -> Z -> smatrix) (m n : Z)
    (Hempty : m <= 0 \/ n <= 0) :
  Speye.speye sparse (Speye.two_arguments (Speye.scalar m) (Speye.scalar n))
  = Speye.returns (sparse [] [] 1 (Z.max m 0) (Z.max n 0))
  /\ Speye.speye sparse (Speye.two_arguments (Speye.scalar m) (Speye.scalar n))
     = Speye.speye sparse
         (Speye.two_arguments (Speye.scalar (Z.max m 0))
            (Speye.scalar (Z.max n 0))).
Proof.
  unfold Speye.speye. simpl.
  assert (Hm : (if m <? 0 then 0 else m) = Z.max m 0).
  { destruct (Z.ltb_spec m 0); lia. }
  assert (Hn : (if n <? 0 then 0 else n) = Z.max n 0).
  { destruct (Z.ltb_spec n 0); lia. }
  assert (Hm' : (if Z.max m 0 <? 0 then 0 else Z.max m 0) = Z.max m 0).
  { destruct (Z.ltb_spec (Z.max m 0) 0); lia. }
  assert (Hn' : (if Z.max n 0 <? 0 then 0 else Z.max n 0) = Z.max n 0).
  { destruct (Z.ltb_spec (Z.max n 0) 0); lia. }
  rewrite Hm, Hn, Hm', Hn'. split; [|reflexivity].
  rewrite colon_empty by lia. reflexivity.
Qed.

Lemma speye_nonpositive_dimension_witness :
  Speye.speye Speye.triplets_sparse
    (Speye.two_arguments (Speye.scalar 2) (Speye.scalar (-3)))
  = Speye.returns (Speye.triplets_sparse [] [] 1 2 0).
Proof.
  refine (proj1 (speye_nonpositive_dimension Speye.triplets_sparse 2 (-3) _)).
  right. lia.
Defined.

(** * datevec *)

Lemma round_binary64_small (z : Z) :
  Z.abs z <= 2 ^ 53 -> Datevec.round_binary64 z = z.
Proof.
  intros Hz. unfold Datevec.round_binary64.
  destruct (Z.leb_spec (Z.abs z) (2 ^ 53)); [reflexivity|lia].
Qed.

(** The whole-number doubles keep the exactness contract. *)
Lemma whole_doubles_exact :
  Datevec.exact_on_whole_numbers Datevec.whole_doubles.
Proof.
  intros a b Ha Hb. simpl.
  rewrite (round_binary64_small a Ha), (round_binary64_small b Hb).
  split; [|split; [|split]].
  - intros Hab. rewrite !round_binary64_small by assumption. reflexivity.
  - intros Hab. rewrite !round_binary64_small by assumption. reflexivity.
  - reflexivity.
  - intros Hpos. destruct (Z.eqb_spec b 0) as [->|_]; [lia|].
    pose proof (Z.mod_pos_bound a b Hpos) as Hr.
    rewrite round_binary64_small by lia. reflexivity.
Qed.



(** * datestr *)

(** X6: called without a format ([f] empty or -1), [datestr] chooses
    the format from its first row alone and formats every row with it:
    the call is the call with the code [guess] gives for the first row.
    That code is 1 when hour, minute and seconds of the row are all
    zero; otherwise 16 when its year, month and day are -1, 12 and 31;
    otherwise 0; each of the three names an entry of [dateform]. *)
Theorem datestr_format_from_first_row {row_error : Type}
    (format_row : string -> Datestr.row -> row_error + string)
    (vertcat : list string -> string -> option (list string))
    (f : Datestr.format) (v : Datestr.row) (rest : list Datestr.row)
    (Hf : f = Datestr.f_empty \/ f = Datestr.f_code (-1)) :
  Datestr.datestr_rows format_row vertcat f 1 (v :: rest) []
  = Datestr.datestr_rows format_row vertcat
      (Datestr.f_code (Datestr.guess v)) 1 (v :: rest) []
  /\ (Datestr.guess v = 1
      <-> PrimFloat.eqb (Datestr.v4 v) 0 = true
          /\ PrimFloat.eqb (Datestr.v5 v) 0 = true
          /\ PrimFloat.eqb (Datestr.v6 v) 0 = true)
  /\ (Datestr.guess v = 16
      <-> ~ (PrimFloat.eqb (Datestr.v4 v) 0 = true
             /\ PrimFloat.eqb (Datestr.v5 v) 0 = true
             /\ PrimFloat.eqb (Datestr.v6 v) 0 = true)
          /\ PrimFloat.eqb (Datestr.v1 v) (-1) = true
          /\ PrimFloat.eqb (Datestr.v2 v) 12 = true
          /\ PrimFloat.eqb (Datestr.v3 v) 31 = true)
  /\ (Datestr.guess v = 0
      <-> ~ (PrimFloat.eqb (Datestr.v4 v) 0 = true
             /\ PrimFloat.eqb (Datestr.v5 v) 0 = true
             /\ PrimFloat.eqb (Datestr.v6 v) 0 = true)
          /\ ~ (PrimFloat.eqb (Datestr.v1 v) (-1) = true
                /\ PrimFloat.eqb (Datestr.v2 v) 12 = true
                /\ PrimFloat.eqb (Datestr.v3 v) 31 = true))
  /\ Datestr.dateform_at (1 + 1) = Some "dd-mmm-yyyy"%string
  /\ Datestr.dateform_at (16 + 1) = Some "HH:MM PM"%string
  /\ Datestr.dateform_at (0 + 1) = Some "dd-mmm-yyyy HH:MM:SS"%string.
Proof.
  assert (Hguess : Datestr.guess v = 0 \/ Datestr.guess v = 1
                   \/ Datestr.guess v = 16).
  { unfold Datestr.guess. repeat case_match; auto. }
  split.
  { assert (Hne : (Datestr.guess v =? -1) = false).
    { apply Z.eqb_neq. lia. }
    destruct Hf as [-> | ->]; simpl; rewrite ?Hne; reflexivity. }
  unfold Datestr.guess.
  destruct (PrimFloat.eqb (Datestr.v4 v) 0), (PrimFloat.eqb (Datestr.v5 v) 0),
    (PrimFloat.eqb (Datestr.v6 v) 0), (PrimFloat.eqb (Datestr.v1 v) (-1)),
    (PrimFloat.eqb (Datestr.v2 v) 12), (PrimFloat.eqb (Datestr.v3 v) 31);
    simpl; repeat split; intros;
    repeat match goal with
           | H : _ /\ _ |- _ => destruct H
           | H : ~ _ |- False => apply H; clear H
           | |- ~ _ => intro
           end;
    try discriminate; try reflexivity; try lia; auto.
Qed.

Lemma datestr_format_from_first_row_witness :
  let format_row : string -> Datestr.row -> unit + string :=
    fun df _ => inr df in
  let vertcat : list string -> string -> option (list string) :=
    fun retval str => Some (retval ++ [str]) in
  let midnight := Datestr.mk_row 2005 12 18 0 0 0 in
  let afternoon := Datestr.mk_row 2005 12 19 14 33 17 in
  let time_only := Datestr.mk_row (-1) 12 31 14 33 17 in
  Datestr.datestr_rows format_row vertcat Datestr.f_empty 1
    [midnight; afternoon] []
  = inr ["dd-mmm-yyyy"; "dd-mmm-yyyy"]%string
  /\ Datestr.datestr_rows format_row vertcat (Datestr.f_code (-1)) 1
       [time_only; midnight] []
     = inr ["HH:MM PM"; "HH:MM PM"]%string
  /\ Datestr.datestr_rows format_row vertcat Datestr.f_empty 1
       [afternoon; midnight] []
     = inr ["dd-mmm-yyyy HH:MM:SS"; "dd-mmm-yyyy HH:MM:SS"]%string.
Proof.
  intros format_row vertcat midnight afternoon time_only.
  split; [|split].
  - rewrite (proj1 (datestr_format_from_first_row format_row vertcat
                      Datestr.f_empty midnight [afternoon]
                      (or_introl eq_refl))).
    reflexivity.
  - rewrite (proj1 (datestr_format_from_first_row format_row vertcat
                      (Datestr.f_code (-1)) time_only [midnight]
                      (or_intror eq_refl))).
    reflexivity.
  - rewrite (proj1 (datestr_format_from_first_row format_row vertcat
                      Datestr.f_empty afternoon [midnight]
                      (or_introl eq_refl))).
    reflexivity.
Defined.

Lemma dateform_at_code (c : Z) :
  (0 <= c <= 31 -> exists df, Datestr.dateform_at (c + 1) = Some df)
  /\ (c < 0 \/ 31 < c -> Datestr.dateform_at (c + 1) = None).
Proof.
  unfold Datestr.dateform_at. split.
  - intros Hc. destruct (Z.ltb_spec (c + 1) 1) as [Hlt|_]; [lia|].
    apply lookup_lt_is_Some. simpl. lia.
  - intros Hc. destruct (Z.ltb_spec (c + 1) 1) as [_|Hge]; [reflexivity|].
    apply lookup_ge_None. simpl. lia.
Qed.

Lemma datestr_rows_no_index_error {row_error : Type}
    (format_row : string -> Datestr.row -> row_error + string)
    (vertcat : list string -> string -> option (list string))
    (c : Z) (df : string) (v : list Datestr.row) :
  c <> -1 -> Datestr.dateform_at (c + 1) = Some df ->
  forall (i : Z) (retval : list string),
    Datestr.datestr_rows format_row vertcat (Datestr.f_code c) i v retval
    <> inl Datestr.index_out_of_bound.
Proof.
  intros Hc Hdf. apply Z.eqb_neq in Hc.
  induction v as [|vi rest IH]; intros i retval; simpl.
  - destruct (i =? 1); discriminate.
  - rewrite Hc, Hdf.
    destruct (format_row df vi) as [e|str]; [discriminate|].
    destruct (i =? 1); [apply IH|].
    destruct (vertcat retval str); [apply IH|discriminate].
Qed.

(** X7: with a numeric format code other than -1 and at least one row,
    [datestr] stops with the index error of [dateform{f + 1}] exactly
    when the code lies outside 0..31, the codes of the table; no later
    row and no failure of the formatting itself shows up as that
    error. *)
Theorem datestr_code_out_of_table {row_error : Type}
    (format_row : string -> Datestr.row -> row_error + string)
    (vertcat : list string -> string -> option (list string))
    (c : Z) (v : Datestr.row) (rest : list Datestr.row)
    (Hc : c <> -1) :
  Datestr.datestr_rows format_row vertcat (Datestr.f_code c) 1 (v :: rest) []
  = inl Datestr.index_out_of_bound
  <-> c < 0 \/ 31 < c.
Proof.
  destruct (dateform_at_code c) as [Hin Hout]. split.
  - intros Hcall.
    destruct (Z_lt_le_dec c 0) as [Hneg|Hnonneg]; [left; exact Hneg|].
    destruct (Z_lt_le_dec 31 c) as [Hbig|Hsmall]; [right; exact Hbig|].
    exfalso. destruct (Hin (conj Hnonneg Hsmall)) as [df Hdf].
    exact (datestr_rows_no_index_error format_row vertcat c df (v :: rest)
             Hc Hdf 1 [] Hcall).
  - intros Hrange. simpl. apply Z.eqb_neq in Hc.
    rewrite Hc, (Hout Hrange). reflexivity.
Qed.

Lemma datestr_code_out_of_table_witness :
  Datestr.datestr_rows (row_error := unit) (fun df _ => inr df)
    (fun retval str => Some (retval ++ [str]))
    (Datestr.f_code 32) 1 [Datestr.mk_row 2005 12 18 2 33 17] []
  = inl Datestr.index_out_of_bound.
Proof.
  apply (datestr_code_out_of_table (row_error := unit) (fun df _ => inr df)
           (fun retval str => Some (retval ++ [str])) 32
           (Datestr.mk_row 2005 12 18 2 33 17) []).
  - discriminate.
  - right. lia.
Defined.
